(** * sosat-optics: the far-field notebook [sat_farfield.ipynb]

    A shallow embedding of the array computations of the notebook: the
    pathlength-to-phase conversion and the complex near-field beam
    (Field Synthesizer), the peak lookup and the half-maximum widths of
    the far-field map (Beam-Width Extractor), and, from the
    specification, the two [opt_analyze] helpers the notebook calls
    (Zero-Padder and Coordinate Mapper).

    Numbers.  A finite float64 is read as the rational it denotes and
    the arithmetic on finite values is exact; the special values a
    division can create (NaN, +inf, -inf) are kept, because NumPy
    returns them instead of raising.  The pathlength-to-phase
    conversion is the exception: there the rounding of each operation
    decides which end points the phase can reach, so every operation is
    rounded to binary64 (module [F64]).  Arrays are lists,
    two-dimensional arrays are lists of rows, and a Python exception is
    the [Raise] branch of [result]. *)

From Stdlib Require Import QArith Qabs Qround Qminmax Qpower.
From Stdlib Require Import List Lia Lqa ZArith Bool PeanoNat.
Import ListNotations.
Open Scope Q_scope.

(** ** NumPy primitives *)

Module Np.

(** The exceptions these cells can raise. *)
Inductive exn : Type :=
| ValueError   (* reduction of an empty array, shapes that do not broadcast *)
| IndexError.  (* index out of bounds *)

Inductive result (A : Type) : Type :=
| Ok (a : A)
| Raise (e : exn).

Arguments Ok {A} a.
Arguments Raise {A} e.

Definition bind {A B : Type} (r : result A) (k : A -> result B) : result B :=
  match r with
  | Ok a => k a
  | Raise e => Raise e
  end.

Definition of_option {A : Type} (e : exn) (o : option A) : result A :=
  match o with
  | Some a => Ok a
  | None => Raise e
  end.

Fixpoint mapM {A B : Type} (f : A -> result B) (l : list A) : result (list B) :=
  match l with
  | [] => Ok []
  | a :: t =>
      bind (f a) (fun b => bind (mapM f t) (fun bs => Ok (b :: bs)))
  end.

(** A float64 value: a finite number or one of the three specials. *)
Inductive fl : Type :=
| Fin (q : Q)
| PInf
| NInf
| NaN.

(** [math.pi], the double nearest to pi, as the rational it is. *)
Definition pi : Q := 884279719003555 # 281474976710656.

(** Strict comparison of two finite numbers. *)
Definition Qgtb (x y : Q) : bool := negb (Qle_bool x y).

(** True division [x / y]: NumPy warns and returns NaN or a signed
    infinity when the divisor is zero. *)
Definition fl_div (x y : fl) : fl :=
  match x, y with
  | NaN, _ | _, NaN => NaN
  | Fin a, Fin b =>
      if Qeq_bool b 0 then
        (if Qeq_bool a 0 then NaN else if Qgtb a 0 then PInf else NInf)
      else Fin (a / b)
  | Fin _, (PInf | NInf) => Fin 0
  | PInf, Fin b => if Qle_bool 0 b then PInf else NInf
  | NInf, Fin b => if Qle_bool 0 b then NInf else PInf
  | (PInf | NInf), (PInf | NInf) => NaN
  end.

Definition fl_add (x y : fl) : fl :=
  match x, y with
  | NaN, _ | _, NaN => NaN
  | Fin a, Fin b => Fin (a + b)
  | PInf, NInf | NInf, PInf => NaN
  | PInf, _ | _, PInf => PInf
  | NInf, _ | _, NInf => NInf
  end.

Definition fl_abs (x : fl) : fl :=
  match x with
  | Fin a => Fin (Qabs a)
  | PInf | NInf => PInf
  | NaN => NaN
  end.

(** [x > y]; every comparison with NaN is false. *)
Definition fl_gtb (x y : fl) : bool :=
  match x, y with
  | NaN, _ | _, NaN => false
  | Fin a, Fin b => Qgtb a b
  | PInf, PInf => false
  | PInf, _ => true
  | _, PInf => false
  | NInf, _ => false
  | Fin _, NInf => true
  end.

(** [np.maximum] on two values: NaN propagates. *)
Definition fl_max2 (x y : fl) : fl :=
  match x, y with
  | NaN, _ | _, NaN => NaN
  | _, _ => if fl_gtb y x then y else x
  end.

(** [np.max] of a one-dimensional array of finite numbers. *)
Definition max (l : list Q) : result Q :=
  match l with
  | [] => Raise ValueError
  | x :: t => Ok (fold_left Qmax t x)
  end.

(** [np.max] of an array that may hold specials. *)
Definition fmax (l : list fl) : result fl :=
  match l with
  | [] => Raise ValueError
  | x :: t => Ok (fold_left fl_max2 t x)
  end.

(** [np.where] on a one-dimensional boolean array: the indices of the
    true entries, ascending. *)
Fixpoint where_from (i : nat) (m : list bool) : list nat :=
  match m with
  | [] => []
  | b :: t => if b then i :: where_from (S i) t else where_from (S i) t
  end.

Definition where1 (m : list bool) : list nat := where_from 0 m.

(** [np.where] on a two-dimensional boolean array: the positions of the
    true entries in row-major order. *)
Fixpoint where_rows (i : nat) (m : list (list bool)) : list (nat * nat) :=
  match m with
  | [] => []
  | r :: t => map (fun j => (i, j)) (where1 r) ++ where_rows (S i) t
  end.

(** The tuple [(rows, columns)] that [np.where] returns. *)
Definition where2 (m : list (list bool)) : list nat * list nat :=
  let ps := where_rows 0 m in (map fst ps, map snd ps).

(** [l[0]] and [l[-1]]. *)
Definition first {A : Type} (l : list A) : result A :=
  of_option IndexError (hd_error l).

Definition last_ {A : Type} (l : list A) : result A :=
  of_option IndexError (hd_error (rev l)).

(** [l[i]] for a nonnegative index. *)
Definition get {A : Type} (l : list A) (i : nat) : result A :=
  of_option IndexError (nth_error l i).

(** [x[idx]] for an integer index array. *)
Definition take {A : Type} (x : list A) (idx : list nat) : result (list A) :=
  mapM (get x) idx.

(** [m[i, :]] and [m[:, j]]. *)
Definition row {A : Type} (m : list (list A)) (i : nat) : result (list A) :=
  get m i.

Definition col {A : Type} (m : list (list A)) (j : nat) : result (list A) :=
  mapM (fun r => get r j) m.

(** Shape of a two-dimensional array: [r] rows of [c] entries. *)
Definition shape {A : Type} (r c : nat) (m : list (list A)) : Prop :=
  length m = r /\ Forall (fun w => length w = c) m.

End Np.

Import Np.

Notation "x <- c1 ;; c2" := (Np.bind c1 (fun x => c2))
  (at level 61, c1 at next level, right associativity).

(** ** Binary64 arithmetic

    A finite float64 is the rational it denotes; an operation computes
    the exact rational result and rounds it to the nearest float64,
    ties to even, with gradual underflow and with overflow to an
    infinity.  The two zeros are not told apart. *)

Module F64.

(** [2 ^ e] *)
Definition pow2 (e : Z) : Q := 2 ^ e.

(** The binade of a positive number: the [k] with [2^k <= q < 2^(k+1)]. *)
Definition ilog2 (q : Q) : Z :=
  let k := (Z.log2 (Qnum q) - Z.log2 (Zpos (Qden q)))%Z in
  if Qle_bool (pow2 k) q then k else (k - 1)%Z.

(** Exponent of the unit in the last place of the binary64 nearest to
    [q]: 53 significant bits, and the subnormal grid [2^-1074] below
    [2^-1022]. *)
Definition ulp_exp (q : Q) : Z := Z.max (ilog2 (Qabs q) - 52) (-1074).

(** Nearest integer, ties to the even one. *)
Definition rne (x : Q) : Z :=
  let f := Qfloor x in
  match Qcompare (x - inject_Z f) (1 # 2) with
  | Lt => f
  | Gt => (f + 1)%Z
  | Eq => if Z.even f then f else (f + 1)%Z
  end.

(** The binary64 nearest to [q], ties to even; a result of magnitude
    [2^1024] or more is an infinity.  This is also how a decimal
    literal of the source becomes a float64.  Zero has no sign here. *)
Definition round (q : Q) : fl :=
  if Qeq_bool q 0 then Fin 0
  else
    let e := ulp_exp q in
    let r := Qred (inject_Z (rne (q / pow2 e)) * pow2 e) in
    if Qle_bool (pow2 1024) (Qabs r)
    then (if Qle_bool 0 q then PInf else NInf)
    else Fin r.

(** Sign bit of a value that is not zero. *)
Definition negative (x : fl) : bool :=
  match x with Fin a => negb (Qle_bool 0 a) | NInf => true | _ => false end.

Definition inf (neg : bool) : fl := if neg then NInf else PInf.

(** [x + y], [-x], [x - y], [x * y], [x / y] on float64. *)
Definition add (x y : fl) : fl :=
  match x, y with
  | NaN, _ | _, NaN => NaN
  | Fin a, Fin b => round (a + b)
  | PInf, NInf | NInf, PInf => NaN
  | PInf, _ | _, PInf => PInf
  | NInf, _ | _, NInf => NInf
  end.

Definition opp (x : fl) : fl :=
  match x with Fin a => Fin (- a) | PInf => NInf | NInf => PInf | NaN => NaN end.

Definition sub (x y : fl) : fl := add x (opp y).

Definition mul (x y : fl) : fl :=
  match x, y with
  | NaN, _ | _, NaN => NaN
  | Fin a, Fin b => round (a * b)
  | Fin a, _ => if Qeq_bool a 0 then NaN else inf (xorb (negative x) (negative y))
  | _, Fin b => if Qeq_bool b 0 then NaN else inf (xorb (negative x) (negative y))
  | _, _ => inf (xorb (negative x) (negative y))
  end.

Definition div (x y : fl) : fl :=
  match x, y with
  | NaN, _ | _, NaN => NaN
  | Fin a, Fin b =>
      if Qeq_bool b 0 then (if Qeq_bool a 0 then NaN else inf (negative x))
      else round (a / b)
  | Fin _, _ => Fin 0
  | _, Fin _ => inf (xorb (negative x) (negative y))
  | _, _ => NaN
  end.

(** C [fmod]: the remainder of the division truncated towards zero; it
    is exact. *)
Definition fmod (a b : Q) : Q :=
  let q := a / b in
  a - inject_Z (if Qle_bool 0 q then Qfloor q else Qceiling q) * b.

(** [np.mod x y] on float64: [fmod], then the divisor is added, with
    rounding, when the remainder is not zero and has the other sign. *)
Definition mod_ (x y : fl) : fl :=
  match x, y with
  | NaN, _ | _, NaN => NaN
  | Fin a, Fin b =>
      if Qeq_bool b 0 then NaN
      else
        let r := fmod a b in
        if Qeq_bool r 0 then Fin 0
        else if xorb (negative y) (negative (Fin r)) then round (r + b)
        else Fin (Qred r)
  | Fin a, _ =>
      if Qeq_bool a 0 then Fin 0
      else if xorb (negative y) (negative x) then y else x
  | _, _ => NaN
  end.

(** [np.mean] of an array of fewer than 8 elements: NumPy adds such an
    array from left to right and divides by the count. *)
Definition mean_short (l : list fl) : fl :=
  div (fold_left add l (Fin 0)) (Fin (inject_Z (Z.of_nat (length l)))).

(** [x == y] on float64: NaN equals nothing. *)
Definition eqb (x y : fl) : bool :=
  match x, y with
  | Fin a, Fin b => Qeq_bool a b
  | PInf, PInf | NInf, NInf => true
  | _, _ => false
  end.

(** A value that is a number, and a value that is a finite number. *)
Definition not_nan (x : fl) : Prop :=
  match x with NaN => False | _ => True end.

Definition finite (x : fl) : Prop :=
  match x with Fin _ => True | _ => False end.

End F64.

(** ** The notebook *)

Module Notebook.

(** *** Field Synthesizer (cells 1 and 2) *)

(** [tele_geo.k = 2 * np.pi / tele_geo.lambda_] *)
Definition kappa (lambda_ : fl) : fl :=
  F64.div (F64.mul (Fin 2) (Fin Np.pi)) lambda_.

(** [p_sim = np.mod(tele_geo.k * (p_sim - np.mean(p_sim)) / 1e3 / 2, 2 * np.pi)]

    in binary64.  [np.mean] is the argument [mean]: NumPy sums a long
    array in an order of its own (pairwise, in blocks), which the
    notebook does not fix, and nothing that is proved of the phases
    depends on it. *)
Definition p_sim (mean : list fl -> fl) (k : fl) (p : list fl) : list fl :=
  let m := mean p in
  map (fun v =>
         F64.mod_
           (F64.div (F64.div (F64.mul k (F64.sub v m)) (Fin 1000)) (Fin 2))
           (F64.mul (Fin 2) (Fin Np.pi)))
      p.

(** [noise = 1e-6] *)
Definition noise : Q := 1 # 1000000.

(** A sample [amp * exp(1j * phase)] of the complex beam, kept in polar
    form: its modulus is [|amp|]. *)
Record sample : Type := mkSample { amp : fl; phase : Q }.

Definition magnitude (s : sample) : fl := fl_abs (amp s).

(** Elementwise product of two one-dimensional arrays under NumPy
    broadcasting: equal lengths, or one of them of length one. *)
Definition broadcast {A B C : Type} (f : A -> B -> C)
    (u : list A) (v : list B) : result (list C) :=
  if Nat.eqb (length u) (length v) then Ok (map (fun p => f (fst p) (snd p)) (combine u v))
  else match u, v with
       | [a], _ => Ok (map (f a) v)
       | _, [b] => Ok (map (fun a => f a b) u)
       | _, _ => Raise ValueError
       end.

(** [[
a_sim /= np.max(abs(a_sim))
a_sim = a_sim + noise
beam_sim = (a_sim / np.max(a_sim)) * np.exp(complex(0, 1) * p_sim)
]] *)
Definition beam_sim (a_sim : list Q) (p_sim : list Q) : result (list sample) :=
  m1 <- Np.max (map Qabs a_sim) ;;
  let a1 := map (fun a => fl_div (Fin a) (Fin m1)) a_sim in
  let a2 := map (fun a => fl_add a (Fin noise)) a1 in
  m2 <- Np.fmax a2 ;;
  broadcast mkSample (map (fun a => fl_div a m2) a2) p_sim.

(** The normalisation guarantee on one sample: a positive magnitude of
    at most one, and a magnitude of exactly one. *)
Definition unit_bounded (s : sample) : Prop :=
  exists q, magnitude s = Fin q /\ 0 < q /\ q <= 1.

Definition unit_peak (s : sample) : Prop :=
  exists q, magnitude s = Fin q /\ q == 1.

(** *** Beam-Width Extractor (last cell) *)

(** [v * 60 * 180 / np.pi] *)
Definition arcmin (v : Q) : Q := v * 60 * 180 / Np.pi.

(** [indx = np.where(abs(a) == np.max(abs(a)))] *)
Definition indx (a : list (list Q)) : result (list nat * list nat) :=
  let absa := map (map Qabs) a in
  mx <- Np.max (concat absa) ;;
  Ok (Np.where2 (map (map (fun v => Qeq_bool v mx)) absa)).

(** The test [y > 0.5]. *)
Definition above (v : fl) : bool := fl_gtb v (Fin (1 # 2)).

(** [[
v1 = x[np.where((y > 0.5))][0]
v2 = x[np.where((y > 0.5))][-1]
abs(v1 - v2)
]] *)
Definition half_width (x : list Q) (y : list fl) : result Q :=
  s1 <- Np.take x (Np.where1 (map above y)) ;;
  v1 <- Np.first s1 ;;
  s2 <- Np.take x (Np.where1 (map above y)) ;;
  v2 <- Np.last_ s2 ;;
  Ok (Qabs (v1 - v2)).

(** The row cut: lines [indx = ...] to [fwhm1 = abs(v1 - v2)]. *)
Definition fwhm1 (a y_out : list (list Q)) : result Q :=
  let absa := map (map Qabs) a in
  ix <- indx a ;;
  i <- Np.first (fst ix) ;;
  r <- Np.row y_out i ;;
  let x := map arcmin r in
  i' <- Np.first (fst ix) ;;
  c <- Np.row absa i' ;;
  mx <- Np.max (concat absa) ;;
  let y := map (fun v => fl_div (Fin v) (Fin mx)) c in
  half_width x y.

(** The column cut: second [indx = ...] to [fwhm2 = abs(v1 - v2)]. *)
Definition fwhm2 (a x_out : list (list Q)) : result Q :=
  let absa := map (map Qabs) a in
  ix <- indx a ;;
  j <- Np.first (snd ix) ;;
  r <- Np.col x_out j ;;
  let x := map arcmin r in
  j' <- Np.first (snd ix) ;;
  c <- Np.col absa j' ;;
  mx <- Np.max (concat absa) ;;
  let y := map (fun v => fl_div (Fin v) (Fin mx)) c in
  half_width x y.

(** [[
x_out = y_ang
y_out = x_ang
...
fwhm = (fwhm1 + fwhm2) / 2
]] *)
Definition fwhm (a x_ang y_ang : list (list Q)) : result Q :=
  let x_out := y_ang in
  let y_out := x_ang in
  w1 <- fwhm1 a y_out ;;
  w2 <- fwhm2 a x_out ;;
  Ok ((w1 + w2) / 2).

(** *** Far-field maps (cells 3 and 4)

    The transform [beam_fft] enters these two expressions only through
    its array of moduli [abs(beam_fft)], which is the argument [m]. *)

(** [abs(beam_fft) / np.max(abs(beam_fft))], the argument of
    [np.log10] in the plot of the far field. *)
Definition norm_mag (m : list (list Q)) : result (list (list fl)) :=
  mx <- Np.max (concat m) ;;
  Ok (map (map (fun v => fl_div (Fin v) (Fin mx))) m).

(** [a = abs(beam_fft) ** 2 / np.max(abs(beam_fft) ** 2)] *)
Definition intensity (m : list (list Q)) : result (list (list fl)) :=
  let sq := map (map (fun v => v * v)) m in
  mx <- Np.max (concat sq) ;;
  Ok (map (map (fun v => fl_div (Fin v) (Fin mx))) sq).

(** *** The last cell on the map as line 180 delivers it

    The same lines as [indx], [fwhm1], [fwhm2] and [fwhm], on a map
    whose pixels may be NaN or infinite: the division of line 180 makes
    every pixel NaN when the far field is zero everywhere.  On a map of
    finite pixels they are the functions above. *)

(** [abs(a) == np.max(abs(a))] on one pixel. *)
Definition at_peak_fl (mx v : fl) : bool := F64.eqb (fl_abs v) mx.

(** [indx = np.where(abs(a) == np.max(abs(a)))] *)
Definition indx_fl (a : list (list fl)) : result (list nat * list nat) :=
  let absa := map (map fl_abs) a in
  mx <- Np.fmax (concat absa) ;;
  Ok (Np.where2 (map (map (fun v => F64.eqb v mx)) absa)).

Definition fwhm1_fl (a : list (list fl)) (y_out : list (list Q)) : result Q :=
  let absa := map (map fl_abs) a in
  ix <- indx_fl a ;;
  i <- Np.first (fst ix) ;;
  r <- Np.row y_out i ;;
  let x := map arcmin r in
  i' <- Np.first (fst ix) ;;
  c <- Np.row absa i' ;;
  mx <- Np.fmax (concat absa) ;;
  let y := map (fun v => fl_div v mx) c in
  half_width x y.

Definition fwhm2_fl (a : list (list fl)) (x_out : list (list Q)) : result Q :=
  let absa := map (map fl_abs) a in
  ix <- indx_fl a ;;
  j <- Np.first (snd ix) ;;
  r <- Np.col x_out j ;;
  let x := map arcmin r in
  j' <- Np.first (snd ix) ;;
  c <- Np.col absa j' ;;
  mx <- Np.fmax (concat absa) ;;
  let y := map (fun v => fl_div v mx) c in
  half_width x y.

Definition fwhm_fl (a : list (list fl)) (x_ang y_ang : list (list Q)) : result Q :=
  let x_out := y_ang in
  let y_out := x_ang in
  w1 <- fwhm1_fl a y_out ;;
  w2 <- fwhm2_fl a x_out ;;
  Ok ((w1 + w2) / 2).

End Notebook.

Import Notebook.

(** ** The Beam-Width Extractor in the words of the specification

    A second description of the extractor, written from the contract
    and not from the cell: first global maximum in row-major order, the
    two cuts through it, each cut normalised to its own peak, leftmost
    and rightmost sample above one half, widths averaged. *)

Module BeamWidthSpec.

(** Index of the first element that satisfies [f]. *)
Fixpoint find_index {A : Type} (f : A -> bool) (l : list A) : option nat :=
  match l with
  | [] => None
  | a :: t => if f a then Some 0%nat else option_map S (find_index f t)
  end.

(** Index of the last element that satisfies [f]. *)
Definition find_last {A : Type} (f : A -> bool) (l : list A) : option nat :=
  option_map (fun k => (length l - 1 - k)%nat) (find_index f (rev l)).

(** Largest value of a list. *)
Definition peak_value (l : list Q) : option Q :=
  match l with
  | [] => None
  | v :: t => Some (fold_left Qmax t v)
  end.

(** Grid index of the global maximum, first occurrence in row-major
    order: the first row that holds the maximum, and in it the first
    column that does. *)
Definition peak_index (a : list (list Q)) : option (nat * nat) :=
  match peak_value (concat a) with
  | None => None
  | Some pk =>
      match find_index (existsb (fun v => Qeq_bool v pk)) a with
      | None => None
      | Some i =>
          match find_index (fun v => Qeq_bool v pk) (nth i a []) with
          | None => None
          | Some j => Some (i, j)
          end
      end
  end.

Definition column {A : Type} (m : list (list A)) (j : nat) : option (list A) :=
  fold_right
    (fun r acc =>
       match nth_error r j, acc with
       | Some v, Some vs => Some (v :: vs)
       | _, _ => None
       end)
    (Some []) m.

(** Modelled from the spec: [opt_analyze.rad_to_arcmin] is called by
    the notebook but is not among the sources.  Section 4.5: radians to
    arcminutes via rad x (180/pi) x 60. *)
Definition rad_to_arcmin (rad : Q) : Q := rad * (180 / Np.pi) * 60.

(** Width of one cut: the cut is normalised to its own peak and the
    angular coordinates of the leftmost and of the rightmost sample above
    one half are subtracted. *)
Definition cut_fwhm (ang cut : list Q) : option Q :=
  match peak_value cut with
  | None => None
  | Some pk =>
      let above := fun v => Qgtb (v / pk) (1 # 2) in
      match find_index above cut, find_last above cut with
      | Some l, Some r =>
          match nth_error ang l, nth_error ang r with
          | Some xl, Some xr => Some (Qabs (rad_to_arcmin xl - rad_to_arcmin xr))
          | _, _ => None
          end
      | _, _ => None
      end
  end.

Definition fwhm_spec (a x_ang y_ang : list (list Q)) : option Q :=
  match peak_index a with
  | None => None
  | Some (i, j) =>
      match nth_error a i, nth_error x_ang i, column a j, column y_ang j with
      | Some row_cut, Some row_ang, Some col_cut, Some col_ang =>
          match cut_fwhm row_ang row_cut, cut_fwhm col_ang col_cut with
          | Some w1, Some w2 => Some ((w1 + w2) / 2)
          | _, _ => None
          end
      | _, _, _, _ => None
      end
  end.

(** An intensity map of [r] by [c] pixels: magnitudes squared, with a
    positive peak. *)
Definition intensity_map (r c : nat) (a : list (list Q)) : Prop :=
  Np.shape r c a /\ (0 < r)%nat /\ (0 < c)%nat /\
  Forall (Forall (fun v => 0 <= v)) a /\
  Exists (Exists (fun v => 0 < v)) a.

(** The equality test [abs(a) == np.max(abs(a))] on one pixel. *)
Definition at_peak (mx v : Q) : bool := Qeq_bool (Qabs v) mx.

(** Number of samples of a cut above one half. *)
Definition count_above (y : list fl) : nat := length (filter above y).

(** Total angular span of an axis. *)
Definition span (x : list Q) : Q :=
  match x with
  | [] => 0
  | v :: t => fold_left Qmax t v - fold_left Qmin t v
  end.

(** Distance between the two end points of an axis. *)
Definition end_distance (x : list Q) : Q :=
  Qabs (hd 0 x - last x 0).

(** An axis whose coordinates never decrease, or never increase. *)
Fixpoint ascending (x : list Q) : Prop :=
  match x with
  | [] => True
  | v :: t => match t with [] => True | w :: _ => v <= w end /\ ascending t
  end.

Fixpoint descending (x : list Q) : Prop :=
  match x with
  | [] => True
  | v :: t => match t with [] => True | w :: _ => w <= v end /\ descending t
  end.

Definition monotone (x : list Q) : Prop := ascending x \/ descending x.

End BeamWidthSpec.

Import BeamWidthSpec.

(** ** The [opt_analyze] helpers *)

Module OptAnalyze.

(** A complex number, real and imaginary part. *)
Definition C : Type := (Q * Q)%type.

Definition C0 : C := (0, 0).

Definition normsq (z : C) : Q := fst z * fst z + snd z * snd z.

Inductive error : Type := UndersizedPadding.

Record padded : Type := mkPadded {
  x_new : list Q;
  y_new : list Q;
  beam_new : list (list C)
}.

(** Spacing of a grid axis: the step between its first two samples. *)
Definition spacing (x : list Q) : Q :=
  match x with
  | a :: b :: _ => b - a
  | _ => 0
  end.

Definition Qnat (n : nat) : Q := inject_Z (Z.of_nat n).

(** A grid axis of uniform step. *)
Definition uniform (x : list Q) : Prop :=
  forall j, (j < length x)%nat -> nth j x 0 == hd 0 x + Qnat j * spacing x.

(** Modelled from the spec: the new axes of [zero_pad], section 4.3: an
    axis of [n] samples with the step of [x], placed so that sample
    [off] is the first sample of [x]. *)
Definition extend_axis (x : list Q) (off n : nat) : list Q :=
  map (fun i => hd 0 x + (Qnat i - Qnat off) * spacing x) (seq 0 n).

(** Modelled from the spec: the copy into an all-zero array, section
    4.3: [n] zeros with [l] written from position [off]. *)
Definition embed {A : Type} (zero : A) (off n : nat) (l : list A) : list A :=
  repeat zero off ++ l ++ repeat zero (n - off - length l).

(** Modelled from the spec: [opt_analyze.zero_pad] is called by the
    notebook but is not among the sources.  Section 4.3: an N by N
    all-zero complex array is allocated, the new axes have length N and
    the spacing of the input axes, extended symmetrically, the input
    field is copied into the centered sub-block of matching shape, and
    the call fails if N is smaller than either input dimension. *)
Definition zero_pad (x y : list Q) (beam : list (list C)) (n : nat)
    : error + padded :=
  if (n <? length x)%nat || (n <? length y)%nat then inl UndersizedPadding
  else
    let off_x := ((n - length x) / 2)%nat in
    let off_y := ((n - length y) / 2)%nat in
    inr {| x_new := extend_axis x off_x n;
           y_new := extend_axis y off_y n;
           beam_new :=
             embed (repeat C0 n) off_y n (map (embed C0 off_x n) beam) |}.

(** Sum of the entries of a list, and weighted sum of coordinates. *)
Definition Qsum (l : list Q) : Q := fold_right Qplus 0 l.

Definition dot (xs ms : list Q) : Q :=
  Qsum (map (fun p => fst p * snd p) (combine xs ms)).

(** Total weight of a field and its first moments along the two axes;
    [w] weighs a sample. *)
Definition row_mass (w : C -> Q) (r : list C) : Q := Qsum (map w r).

Definition mass (w : C -> Q) (beam : list (list C)) : Q :=
  Qsum (map (row_mass w) beam).

Definition moment_x (w : C -> Q) (x : list Q) (beam : list (list C)) : Q :=
  Qsum (map (fun r => dot x (map w r)) beam).

Definition moment_y (w : C -> Q) (y : list Q) (beam : list (list C)) : Q :=
  dot y (map (row_mass w) beam).

(** Center of mass of the data of a field on its grid. *)
Definition center_of_mass (w : C -> Q) (x y : list Q) (beam : list (list C))
    : Q * Q :=
  (moment_x w x beam / mass w beam, moment_y w y beam / mass w beam).

(** Modelled from the spec: the frequency axis of the discrete Fourier
    transform of [n] samples at spacing [d], section 4.5: frequencies
    k/(n d) for k centered around zero. *)
Definition freq_axis (n : nat) (d : Q) : list Q :=
  map (fun i => (Qnat i - Qnat (n / 2)) / (Qnat n * d)) (seq 0 n).

(** Modelled from the spec: [opt_analyze.coords_spat_to_ang] is called
    by the notebook but is not among the sources.  Section 4.5: given
    the spatial axes and the wavelength in meters, the angular axes are
    the frequency axes of the grid times the wavelength. *)
Definition coords_spat_to_ang (x y : list Q) (wavelength : Q)
    : list Q * list Q :=
  (map (fun f => f * wavelength) (freq_axis (length x) (spacing x)),
   map (fun f => f * wavelength) (freq_axis (length y) (spacing y))).

(** [a] is the angular axis of the grid axis [g]: entry [i] of [N]
    samples at spacing [D] is [(i - N/2) / (N D)] times the wavelength,
    consecutive entries are one frequency step apart, and the zero
    frequency sits at index [N/2]. *)
Definition angular_axis (wavelength : Q) (g a : list Q) : Prop :=
  length a = length g /\
  (forall i, (i < length g)%nat ->
     nth i a 0 ==
     (Qnat i - Qnat (length g / 2)) / (Qnat (length g) * spacing g) * wavelength) /\
  (forall i, (S i < length g)%nat ->
     nth (S i) a 0 - nth i a 0 ==
     1 / (Qnat (length g) * spacing g) * wavelength) /\
  ((0 < length g)%nat -> nth (length g / 2) a 0 == 0).

End OptAnalyze.

Import OptAnalyze.

(** * Properties *)

(** ** Lists, maxima and the error monad *)

Section ListFacts.

Lemma Qgtb_lt (x y : Q) : Qgtb x y = true <-> y < x.
Proof.
  unfold Qgtb. rewrite negb_true_iff.
  split; intro H.
  - apply Qnot_le_lt. intro L. apply Qle_bool_iff in L. congruence.
  - destruct (Qle_bool x y) eqn:E; trivial.
    apply Qle_bool_iff in E. exfalso. apply (Qlt_not_le _ _ H E).
Qed.

Lemma Qgtb_le (x y : Q) : Qgtb x y = false <-> x <= y.
Proof.
  unfold Qgtb. rewrite negb_false_iff. apply Qle_bool_iff.
Qed.

Lemma Qgtb_comp (x x' y y' : Q) : x == x' -> y == y' -> Qgtb x y = Qgtb x' y'.
Proof.
  intros Hx Hy. unfold Qgtb. now rewrite Hx, Hy.
Qed.

Lemma Qmax_cases (x y : Q) : Qmax x y = x \/ Qmax x y = y.
Proof.
  unfold Qmax, GenericMinMax.gmax. destruct (x ?= y); auto.
Qed.

Lemma Qmin_cases (x y : Q) : Qmin x y = x \/ Qmin x y = y.
Proof.
  unfold Qmin, GenericMinMax.gmin. destruct (x ?= y); auto.
Qed.

(** The running maximum is one of the elements. *)
Lemma fold_max_in (t : list Q) (x : Q) : In (fold_left Qmax t x) (x :: t).
Proof.
  revert x. induction t as [|y t IH]; intro x; simpl.
  - now left.
  - destruct (IH (Qmax x y)) as [H|H].
    + rewrite <- H. destruct (Qmax_cases x y) as [E|E]; rewrite E; auto.
    + auto.
Qed.

Lemma fold_max_ge_init (t : list Q) (x : Q) : x <= fold_left Qmax t x.
Proof.
  revert x. induction t as [|y t IH]; intro x; simpl.
  - apply Qle_refl.
  - eapply Qle_trans; [apply Q.le_max_l | apply IH].
Qed.

(** The running maximum bounds every element. *)
Lemma fold_max_ge (t : list Q) (x v : Q) :
  In v (x :: t) -> v <= fold_left Qmax t x.
Proof.
  revert x. induction t as [|y t IH]; intros x [E|H]; simpl.
  - subst. apply Qle_refl.
  - destruct H.
  - subst. eapply Qle_trans; [apply Q.le_max_l | apply fold_max_ge_init].
  - destruct H as [E|H].
    + subst. eapply Qle_trans; [apply Q.le_max_r | apply fold_max_ge_init].
    + apply IH. now right.
Qed.

Lemma fold_min_in (t : list Q) (x : Q) : In (fold_left Qmin t x) (x :: t).
Proof.
  revert x. induction t as [|y t IH]; intro x; simpl.
  - now left.
  - destruct (IH (Qmin x y)) as [H|H].
    + rewrite <- H. destruct (Qmin_cases x y) as [E|E]; rewrite E; auto.
    + auto.
Qed.

Lemma fold_min_le_init (t : list Q) (x : Q) : fold_left Qmin t x <= x.
Proof.
  revert x. induction t as [|y t IH]; intro x; simpl.
  - apply Qle_refl.
  - eapply Qle_trans; [apply IH | apply Q.le_min_l].
Qed.

Lemma fold_min_le (t : list Q) (x v : Q) :
  In v (x :: t) -> fold_left Qmin t x <= v.
Proof.
  revert x. induction t as [|y t IH]; intros x [E|H]; simpl.
  - subst. apply Qle_refl.
  - destruct H.
  - subst. eapply Qle_trans; [apply fold_min_le_init | apply Q.le_min_l].
  - destruct H as [E|H].
    + subst. eapply Qle_trans; [apply fold_min_le_init | apply Q.le_min_r].
    + apply IH. now right.
Qed.

(** [np.max] succeeds exactly on nonempty arrays, and returns an
    element that bounds all of them. *)
Lemma max_ok (l : list Q) :
  l <> [] -> exists m, Np.max l = Ok m /\ In m l /\ forall v, In v l -> v <= m.
Proof.
  destruct l as [|x t]; [congruence|]. intros _.
  exists (fold_left Qmax t x). split; [reflexivity|]. split.
  - apply fold_max_in.
  - intros v. apply fold_max_ge.
Qed.

Lemma max_inv (l : list Q) (m : Q) :
  Np.max l = Ok m -> In m l /\ forall v, In v l -> v <= m.
Proof.
  destruct l as [|x t]; simpl; [discriminate|].
  intro H. injection H as <-. split.
  - apply fold_max_in.
  - intros v. apply fold_max_ge.
Qed.

(** *** Index search *)

Lemma find_index_some {A : Type} (f : A -> bool) (l : list A) (k : nat) :
  find_index f l = Some k ->
  (exists a, nth_error l k = Some a /\ f a = true) /\
  (forall k' a', (k' < k)%nat -> nth_error l k' = Some a' -> f a' = false).
Proof.
  revert k. induction l as [|a t IH]; intros k; simpl.
  - discriminate.
  - destruct (f a) eqn:Fa.
    + intro H. injection H as <-. split.
      * exists a. auto.
      * intros k' a' L. lia.
    + destruct (find_index f t) as [n|] eqn:E; simpl; [|discriminate].
      intro H. injection H as <-.
      destruct (IH n eq_refl) as [[b [Hb Fb]] Hlt]. split.
      * exists b. auto.
      * intros [|k'] a' L; simpl.
        -- intro H. injection H as <-. exact Fa.
        -- apply Hlt. lia.
Qed.

Lemma find_index_none {A : Type} (f : A -> bool) (l : list A) :
  find_index f l = None <-> forall a, In a l -> f a = false.
Proof.
  induction l as [|a t IH]; simpl.
  - split; [intros _ ? []|trivial].
  - destruct (f a) eqn:Fa.
    + split; [discriminate|]. intro H. specialize (H a (or_introl eq_refl)). congruence.
    + destruct (find_index f t) as [n|] eqn:E; simpl.
      * split; [discriminate|]. intro H.
        assert (N : Some n = None) by (apply IH; intros; apply H; auto).
        discriminate.
      * split; trivial. intros _ b [<-|Hb]; trivial.
        now apply (proj1 IH).
Qed.

Lemma find_index_exists {A : Type} (f : A -> bool) (l : list A) (a : A) :
  In a l -> f a = true -> exists k, find_index f l = Some k.
Proof.
  intros Hin Fa. destruct (find_index f l) as [k|] eqn:E; [eauto|].
  rewrite find_index_none in E. specialize (E a Hin). congruence.
Qed.

Lemma find_index_lt {A : Type} (f : A -> bool) (l : list A) (k : nat) :
  find_index f l = Some k -> (k < length l)%nat.
Proof.
  intro H. destruct (find_index_some f l k H) as [[a [Ha _]] _].
  apply nth_error_Some. congruence.
Qed.

Lemma find_index_ext {A : Type} (f g : A -> bool) (l : list A) :
  (forall a, In a l -> f a = g a) -> find_index f l = find_index g l.
Proof.
  induction l as [|a t IH]; simpl; intro H; trivial.
  rewrite (H a (or_introl eq_refl)), IH; auto.
Qed.

Lemma find_index_map {A B : Type} (g : A -> B) (f : B -> bool) (l : list A) :
  find_index f (map g l) = find_index (fun a => f (g a)) l.
Proof.
  induction l as [|a t IH]; simpl; trivial. now rewrite IH.
Qed.

End ListFacts.

(** ** [np.where] and integer-array indexing *)

Section WhereFacts.

Lemma option_map_ext {A B : Type} (f g : A -> B) (o : option A) :
  (forall a, f a = g a) -> option_map f o = option_map g o.
Proof. intro H. destruct o; simpl; congruence. Qed.

Lemma option_map_comp {A B D : Type} (f : A -> B) (g : B -> D) (o : option A) :
  option_map g (option_map f o) = option_map (fun a => g (f a)) o.
Proof. destruct o; reflexivity. Qed.

(** The first index [np.where] reports is the first true entry. *)
Lemma where_from_hd (i : nat) (m : list bool) :
  hd_error (where_from i m) = option_map (Nat.add i) (find_index (fun b => b) m).
Proof.
  revert i. induction m as [|b t IH]; intro i; simpl; trivial.
  destruct b; simpl.
  - f_equal. lia.
  - rewrite IH, option_map_comp. apply option_map_ext. intro; lia.
Qed.

Lemma where_from_app (i : nat) (m n : list bool) :
  where_from i (m ++ n) = where_from i m ++ where_from (i + length m) n.
Proof.
  revert i. induction m as [|b t IH]; intro i; simpl.
  - now rewrite Nat.add_0_r.
  - rewrite IH. replace (S i + length t)%nat with (i + S (length t))%nat by lia.
    destruct b; reflexivity.
Qed.

(** The last index [np.where] reports is the last true entry. *)
Lemma where_from_last (i : nat) (m : list bool) :
  hd_error (rev (where_from i m)) =
  option_map (Nat.add i) (find_last (fun b => b) m).
Proof.
  unfold find_last. induction m as [|b t IH] using rev_ind; simpl; trivial.
  rewrite where_from_app, rev_app_distr, rev_app_distr, length_app. simpl.
  destruct b; simpl.
  - f_equal. lia.
  - rewrite IH, !option_map_comp. apply option_map_ext. intro; lia.
Qed.

Lemma where_from_range (i : nat) (m : list bool) :
  Forall (fun k => (i <= k < i + length m)%nat) (where_from i m).
Proof.
  revert i. induction m as [|b t IH]; intro i; simpl; [constructor|].
  assert (T : Forall (fun k => (i <= k < i + S (length t))%nat) (where_from (S i) t)).
  { eapply Forall_impl; [|apply IH]. simpl. intros; lia. }
  destruct b; trivial. constructor; trivial. lia.
Qed.

Lemma where1_hd {A : Type} (f : A -> bool) (l : list A) :
  hd_error (where1 (map f l)) = find_index f l.
Proof.
  unfold where1. rewrite where_from_hd, find_index_map.
  destruct (find_index _ l); reflexivity.
Qed.

Lemma find_last_map {A B : Type} (g : A -> B) (f : B -> bool) (l : list A) :
  find_last f (map g l) = find_last (fun a => f (g a)) l.
Proof.
  unfold find_last. now rewrite <- map_rev, find_index_map, length_map.
Qed.

Lemma where1_last {A : Type} (f : A -> bool) (l : list A) :
  hd_error (rev (where1 (map f l))) = find_last f l.
Proof.
  unfold where1. rewrite where_from_last, find_last_map.
  destruct (find_last _ l); reflexivity.
Qed.

Lemma where1_range {A : Type} (f : A -> bool) (l : list A) :
  Forall (fun k => (k < length l)%nat) (where1 (map f l)).
Proof.
  unfold where1. eapply Forall_impl; [|apply where_from_range].
  simpl. intro k. rewrite length_map. lia.
Qed.

Lemma find_last_lt {A : Type} (f : A -> bool) (l : list A) (k : nat) :
  find_last f l = Some k -> (k < length l)%nat.
Proof.
  unfold find_last. destruct (find_index f (rev l)) as [n|] eqn:E; simpl; [|discriminate].
  intro H. injection H as <-. apply find_index_lt in E. rewrite length_rev in E. lia.
Qed.

Lemma find_last_some {A : Type} (f : A -> bool) (l : list A) (k : nat) :
  find_last f l = Some k ->
  (exists a, nth_error l k = Some a /\ f a = true) /\
  (forall k' a', (k < k')%nat -> nth_error l k' = Some a' -> f a' = false).
Proof.
  unfold find_last. destruct (find_index f (rev l)) as [n|] eqn:E; simpl; [|discriminate].
  intro H. injection H as <-.
  pose proof (find_index_lt _ _ _ E) as L. rewrite length_rev in L.
  destruct (find_index_some _ _ _ E) as [[a [Ha Fa]] Hlt]. split.
  - exists a. split; trivial.
    rewrite nth_error_rev in Ha.
    assert (T : (n <? length l)%nat = true) by (apply Nat.ltb_lt; lia).
    rewrite T in Ha. rewrite <- Ha. f_equal. lia.
  - intros k' a' Hk Hn.
    assert (Lk : (k' < length l)%nat) by (apply nth_error_Some; congruence).
    apply (Hlt (length l - 1 - k')%nat); [lia|].
    rewrite nth_error_rev.
    assert (T : (length l - 1 - k' <? length l)%nat = true) by (apply Nat.ltb_lt; lia).
    rewrite T. rewrite <- Hn. f_equal. lia.
Qed.

(** Leftmost is not to the right of rightmost. *)
Lemma find_index_le_last {A : Type} (f : A -> bool) (l : list A) (i j : nat) :
  find_index f l = Some i -> find_last f l = Some j -> (i <= j)%nat.
Proof.
  intros Hi Hj.
  destruct (find_index_some _ _ _ Hi) as [[a [Ha Fa]] _].
  destruct (find_last_some _ _ _ Hj) as [_ Hgt].
  destruct (Nat.le_gt_cases i j) as [L|G]; trivial.
  specialize (Hgt i a G Ha). congruence.
Qed.

Lemma find_last_exists {A : Type} (f : A -> bool) (l : list A) (i : nat) :
  find_index f l = Some i -> exists j, find_last f l = Some j.
Proof.
  intro Hi. destruct (find_index_some _ _ _ Hi) as [[a [Ha Fa]] _].
  unfold find_last.
  destruct (find_index_exists f (rev l) a) as [n E]; trivial.
  - apply in_rev. rewrite rev_involutive. eapply nth_error_In; eauto.
  - rewrite E. simpl. eauto.
Qed.

(** *** Integer-array indexing *)

Lemma take_ok {A : Type} (d : A) (x : list A) (idx : list nat) :
  Forall (fun k => (k < length x)%nat) idx ->
  Np.take x idx = Ok (map (fun k => nth k x d) idx).
Proof.
  unfold Np.take. induction 1 as [|k t Hk Ht IH]; simpl; trivial.
  unfold Np.get at 1. rewrite (nth_error_nth' x d Hk). simpl.
  now rewrite IH.
Qed.

Lemma take_fail {A : Type} (x : list A) (idx : list nat) :
  Exists (fun k => (length x <= k)%nat) idx ->
  Np.take x idx = Raise IndexError.
Proof.
  unfold Np.take. induction 1 as [k t Hk|k t Ht IH]; simpl.
  - unfold Np.get. apply nth_error_None in Hk. now rewrite Hk.
  - unfold Np.get at 1. destruct (nth_error x k); simpl; trivial.
    now rewrite IH.
Qed.

Lemma first_map {A B : Type} (f : A -> B) (l : list A) :
  Np.first (map f l) = Np.bind (Np.first l) (fun a => Ok (f a)).
Proof. destruct l; reflexivity. Qed.

Lemma last_map {A B : Type} (f : A -> B) (l : list A) :
  Np.last_ (map f l) = Np.bind (Np.last_ l) (fun a => Ok (f a)).
Proof.
  unfold Np.last_. rewrite <- map_rev. destruct (rev l); reflexivity.
Qed.

End WhereFacts.

(** ** One cut: the half-maximum width *)

Section HalfWidth.

Lemma where_from_length (i : nat) (m : list bool) :
  length (where_from i m) = length (filter (fun b => b) m).
Proof.
  revert i. induction m as [|b t IH]; intro i; simpl; trivial.
  destruct b; simpl; now rewrite IH.
Qed.

Lemma filter_map_length {A B : Type} (g : A -> B) (f : B -> bool) (l : list A) :
  length (filter f (map g l)) = length (filter (fun a => f (g a)) l).
Proof.
  induction l as [|a t IH]; simpl; trivial.
  destruct (f (g a)); simpl; now rewrite IH.
Qed.

Lemma where1_above_length (y : list fl) :
  length (where1 (map above y)) = count_above y.
Proof.
  unfold where1, count_above. now rewrite where_from_length, filter_map_length.
Qed.

(** What the three lines of a cut compute, when the axis is at least as
    long as the cut. *)
Lemma half_width_ok (x : list Q) (y : list fl) (l r : nat) :
  (length y <= length x)%nat ->
  find_index above y = Some l -> find_last above y = Some r ->
  half_width x y = Ok (Qabs (nth l x 0 - nth r x 0)).
Proof.
  intros Hlen Hl Hr. unfold half_width.
  assert (R : Forall (fun k => (k < length x)%nat) (where1 (map above y))).
  { eapply Forall_impl; [|apply where1_range]. simpl. intros; lia. }
  rewrite (take_ok 0 x _ R). simpl.
  rewrite first_map. unfold Np.first.
  rewrite where1_hd, Hl. simpl.
  rewrite last_map. unfold Np.last_.
  rewrite where1_last, Hr. reflexivity.
Qed.

(** No sample above one half: indexing the empty selection raises. *)
Lemma half_width_none (x : list Q) (y : list fl) :
  find_index above y = None -> half_width x y = Raise IndexError.
Proof.
  intro H. unfold half_width.
  assert (E : where1 (map above y) = []).
  { pose proof (where1_hd above y) as Hd. rewrite H in Hd.
    destruct (where1 (map above y)); [trivial|discriminate]. }
  rewrite E. reflexivity.
Qed.

(** A width that is produced comes from the leftmost and the rightmost
    sample above one half. *)
Lemma half_width_inv (x : list Q) (y : list fl) (w : Q) :
  half_width x y = Ok w ->
  exists l r, find_index above y = Some l /\ find_last above y = Some r /\
    (l <= r)%nat /\ (l < length x)%nat /\ (r < length x)%nat /\
    w = Qabs (nth l x 0 - nth r x 0).
Proof.
  intro H. unfold half_width in H.
  destruct (Forall_Exists_dec (fun k => (k < length x)%nat)
              (fun k => lt_dec k (length x)) (where1 (map above y))) as [F|E].
  2:{ rewrite take_fail in H; [discriminate|].
      eapply Exists_impl; [|exact E]. simpl. intros; lia. }
  rewrite (take_ok 0 x _ F) in H. cbn [Np.bind] in H.
  rewrite first_map, last_map in H. unfold Np.first, Np.last_ in H.
  pose proof (where1_hd above y) as Hd.
  pose proof (where1_last above y) as Hlast.
  rewrite Forall_forall in F.
  destruct (find_index above y) as [l|] eqn:Hl;
    [|rewrite Hd in H; discriminate].
  destruct (find_last above y) as [r|] eqn:Hr;
    [|rewrite Hd, Hlast in H; discriminate].
  rewrite Hd, Hlast in H. cbn [Np.bind Np.of_option] in H. injection H as <-.
  exists l, r. repeat split; trivial.
  - eapply find_index_le_last; eauto.
  - apply F. destruct (where1 (map above y)); [discriminate|].
    injection Hd as ->. now left.
  - apply F, in_rev. destruct (rev (where1 (map above y))); [discriminate|].
    injection Hlast as ->. now left.
Qed.

End HalfWidth.

(** ** Axes: span and end points *)

Section Axes.

Lemma last_nth_pred (x : list Q) : last x 0 = nth (length x - 1) x 0.
Proof.
  induction x as [|a t IH]; trivial.
  destruct t as [|b t']; trivial.
  change (last (a :: b :: t') 0) with (last (b :: t') 0). rewrite IH.
  simpl. now rewrite Nat.sub_0_r.
Qed.

Lemma hd_nth_0 (x : list Q) : hd 0 x = nth 0 x 0.
Proof. destruct x; reflexivity. Qed.

Lemma Qabs_diff_bound (a b lo hi : Q) :
  lo <= a <= hi -> lo <= b <= hi -> Qabs (a - b) <= hi - lo.
Proof.
  intros [A1 A2] [B1 B2]. apply Qabs_Qle_condition. split; lra.
Qed.

Lemma span_bound (x : list Q) (l r : nat) :
  (l < length x)%nat -> (r < length x)%nat ->
  Qabs (nth l x 0 - nth r x 0) <= span x.
Proof.
  intros Hl Hr. destruct x as [|v t]; [simpl in Hl; lia|].
  unfold span. apply Qabs_diff_bound; split;
    solve [apply fold_min_le; apply nth_In; trivial
          |apply fold_max_ge; apply nth_In; trivial].
Qed.

Lemma ascending_nth (x : list Q) :
  ascending x ->
  forall i j, (i <= j)%nat -> (j < length x)%nat -> nth i x 0 <= nth j x 0.
Proof.
  induction x as [|a t IH]; intros A i j Hij Hj; [simpl in Hj; lia|].
  destruct A as [Ah At]. destruct j as [|j].
  - replace i with 0%nat by lia. apply Qle_refl.
  - simpl in Hj. destruct i as [|i].
    + destruct t as [|b t']; [simpl in Hj; lia|].
      simpl in Ah, Hj. apply Qle_trans with b; [exact Ah|].
      apply (IH At 0%nat j); [lia|simpl; lia].
    + apply (IH At i j); lia.
Qed.

Lemma descending_nth (x : list Q) :
  descending x ->
  forall i j, (i <= j)%nat -> (j < length x)%nat -> nth j x 0 <= nth i x 0.
Proof.
  induction x as [|a t IH]; intros A i j Hij Hj; [simpl in Hj; lia|].
  destruct A as [Ah At]. destruct j as [|j].
  - replace i with 0%nat by lia. apply Qle_refl.
  - simpl in Hj. destruct i as [|i].
    + destruct t as [|b t']; [simpl in Hj; lia|].
      simpl in Ah, Hj. apply Qle_trans with b; [|exact Ah].
      apply (IH At 0%nat j); [lia|simpl; lia].
    + apply (IH At i j); lia.
Qed.

(** On a monotone axis the span is the distance of the end points, and
    the distance of any two coordinates is at most that. *)
Lemma monotone_span (x : list Q) :
  monotone x -> span x == end_distance x.
Proof.
  intro M. destruct x as [|v t]; [reflexivity|].
  unfold span, end_distance. rewrite last_nth_pred, hd_nth_0.
  set (x := v :: t) in *.
  assert (L0 : (0 < length x)%nat) by (simpl; lia).
  destruct (In_nth x _ 0 (fold_max_in t v)) as [kM [LM EM]].
  destruct (In_nth x _ 0 (fold_min_in t v)) as [km [Lm Em]].
  assert (GM : forall k, (k < length x)%nat -> nth k x 0 <= fold_left Qmax t v).
  { intros k Hk. apply fold_max_ge, nth_In, Hk. }
  assert (Gm : forall k, (k < length x)%nat -> fold_left Qmin t v <= nth k x 0).
  { intros k Hk. apply fold_min_le, nth_In, Hk. }
  pose proof (GM 0%nat L0) as G1. pose proof (Gm 0%nat L0) as G2.
  assert (Ll : (length x - 1 < length x)%nat) by lia.
  pose proof (GM _ Ll) as G3. pose proof (Gm _ Ll) as G4.
  destruct M as [A|D].
  - pose proof (ascending_nth x A kM (length x - 1)%nat ltac:(lia) Ll) as U1.
    pose proof (ascending_nth x A 0%nat km ltac:(lia) Lm) as U2.
    rewrite EM in U1. rewrite Em in U2.
    rewrite Qabs_neg by lra. lra.
  - pose proof (descending_nth x D 0%nat kM ltac:(lia) LM) as U1.
    pose proof (descending_nth x D km (length x - 1)%nat ltac:(lia) Ll) as U2.
    rewrite EM in U1. rewrite Em in U2.
    rewrite Qabs_pos by lra. lra.
Qed.

End Axes.

(** ** Beam-Width Extractor: one axis *)

Section CutWidth.

(** C10: a width that is produced for an axis [x] and a cut [y] is
    nonnegative and at most the total angular span of the axis (greatest
    minus least coordinate); on a monotone axis that span is the distance
    between the two end points of the axis; and when every sample of the
    cut is above one half the width is exactly the distance between the
    end points. *)
Theorem half_width_within_span (x : list Q) (y : list fl) (w : Q) :
  half_width x y = Ok w ->
  0 <= w /\ w <= span x /\
  (monotone x -> w <= end_distance x /\ span x == end_distance x) /\
  (length x = length y -> (forall v, In v y -> above v = true) ->
   w == end_distance x).
Proof.
  intro H.
  destruct (half_width_inv x y w H) as (l & r & Hl & Hr & Hle & Ll & Lr & ->).
  assert (B : Qabs (nth l x 0 - nth r x 0) <= span x) by now apply span_bound.
  split; [apply Qabs_nonneg|]. split; [exact B|]. split.
  - intro M. pose proof (monotone_span x M) as E. split; trivial.
    now rewrite <- E.
  - intros Hlen Hall.
    assert (l = 0%nat) as ->.
    { destruct (find_index_some _ _ _ Hl) as [_ Hlt].
      destruct l as [|l]; trivial. exfalso.
      destruct (nth_error y 0) as [v|] eqn:E.
      - specialize (Hlt 0%nat v ltac:(lia) E).
        rewrite (Hall v) in Hlt; [discriminate|]. eapply nth_error_In; eauto.
      - apply nth_error_None in E. lia. }
    assert (r = (length x - 1)%nat) as ->.
    { destruct (find_last_some _ _ _ Hr) as [_ Hgt].
      destruct (Nat.lt_ge_cases r (length x - 1)) as [L|G]; [|lia]. exfalso.
      destruct (nth_error y (length x - 1)) as [v|] eqn:E.
      - specialize (Hgt _ v L E).
        rewrite (Hall v) in Hgt; [discriminate|]. eapply nth_error_In; eauto.
      - apply nth_error_None in E. lia. }
    unfold end_distance. now rewrite last_nth_pred, hd_nth_0.
Qed.

(** The theorem at an axis of five coordinates, three samples above one half. *)
Lemma half_width_within_span_witness :
  let x := [-2; -1; 0; 1; 2] in
  let y := [Fin (1 # 10); Fin (6 # 10); Fin 1; Fin (7 # 10); Fin (2 # 10)] in
  half_width x y = Ok 2 /\ 0 <= 2 /\ 2 <= span x.
Proof.
  intros x y.
  assert (H : half_width x y = Ok 2) by reflexivity.
  destruct (half_width_within_span x y 2 H) as (H0 & H1 & _).
  exact (conj H (conj H0 H1)).
Defined.

End CutWidth.

Section Undersampled.

Lemma Qabs_self_diff (v : Q) : Qabs (v - v) == 0.
Proof.
  assert (E : v - v == 0) by ring. rewrite E. reflexivity.
Qed.

(** C3, as the cell behaves: a cut with no sample above one half makes
    the indexing of the empty selection raise IndexError; a cut with
    exactly one sample above one half does not fail, its leftmost and
    rightmost sample coincide and the width is zero. *)
Theorem half_width_undersampled (x : list Q) (y : list fl) :
  (length y <= length x)%nat ->
  (count_above y = 0%nat -> half_width x y = Raise IndexError) /\
  (count_above y = 1%nat -> exists w, half_width x y = Ok w /\ w == 0).
Proof.
  intro Hlen. rewrite <- where1_above_length.
  pose proof (where1_hd above y) as Hd.
  pose proof (where1_last above y) as Hl.
  split; intro Hc.
  - apply half_width_none.
    destruct (where1 (map above y)); [now rewrite <- Hd|discriminate].
  - destruct (where1 (map above y)) as [|k [|k' t]]; try discriminate.
    simpl in Hd, Hl. symmetry in Hd, Hl.
    exists (Qabs (nth k x 0 - nth k x 0)). split.
    + now apply half_width_ok.
    + apply Qabs_self_diff.
Qed.

(** The theorem at a cut whose only sample above one half is its peak. *)
Lemma half_width_undersampled_witness :
  exists w, half_width [-1; 0; 1] [Fin (1 # 4); Fin 1; Fin (1 # 4)] = Ok w /\ w == 0.
Proof.
  refine (proj2 (half_width_undersampled
                   [-1; 0; 1] [Fin (1 # 4); Fin 1; Fin (1 # 4)] _) _).
  - simpl. lia.
  - reflexivity.
Defined.

(** C3 as stated fails: fewer than two samples above one half, and yet a
    width, zero, is returned, for the cut alone and for a whole map whose
    peak pixel is the only one above one half in its row and column. *)
Lemma undersampled_cut_returns_zero :
  let y := [Fin (1 # 4); Fin 1; Fin (1 # 4)] in
  let a := [[0; 1 # 4; 0]; [1 # 4; 1; 1 # 4]; [0; 1 # 4; 0]] in
  let x_ang := [[-1; 0; 1]; [-1; 0; 1]; [-1; 0; 1]] in
  let y_ang := [[-1; -1; -1]; [0; 0; 0]; [1; 1; 1]] in
  (count_above y < 2)%nat /\
  half_width [-1; 0; 1] y = Ok 0 /\
  (exists w, fwhm a x_ang y_ang = Ok w /\ w == 0) /\
  ~ (forall (x : list Q) (y : list fl),
        length x = length y -> (count_above y < 2)%nat ->
        exists e, half_width x y = Raise e).
Proof.
  intros y a x_ang y_ang.
  assert (Hc : (count_above y < 2)%nat) by (apply Nat.ltb_lt; reflexivity).
  split; [exact Hc|]. split; [reflexivity|]. split.
  - eexists. split; [vm_compute; reflexivity|reflexivity].
  - intro H. destruct (H [-1; 0; 1] y eq_refl Hc) as [e He].
    discriminate He.
Qed.

End Undersampled.

(** ** Beam-Width Extractor: the peak lookup *)

Section PeakLookup.

Lemma find_index_existsb {A : Type} (f : A -> bool) (l : list A) :
  existsb f l = true -> exists j, find_index f l = Some j.
Proof.
  intro H. apply existsb_exists in H. destruct H as [a [Hin Fa]].
  eapply find_index_exists; eauto.
Qed.

Lemma find_index_not_existsb {A : Type} (f : A -> bool) (l : list A) :
  existsb f l = false -> find_index f l = None.
Proof.
  intro H. apply find_index_none. intros a Hin.
  destruct (f a) eqn:Fa; trivial.
  assert (T : existsb f l = true) by (apply existsb_exists; eauto).
  congruence.
Qed.

(** The first position [np.where] reports on a two-dimensional array:
    first row that holds a true entry, first true entry of that row. *)
Lemma where_rows_hd (i : nat) (m : list (list bool)) :
  hd_error (where_rows i m) =
  match find_index (existsb (fun b => b)) m with
  | None => None
  | Some k =>
      option_map (fun j => ((i + k)%nat, j)) (find_index (fun b => b) (nth k m []))
  end.
Proof.
  revert i. induction m as [|r t IH]; intro i; simpl; trivial.
  pose proof (where_from_hd 0 r) as Hr. fold (where1 r) in Hr.
  destruct (existsb (fun b => b) r) eqn:E.
  - destruct (find_index_existsb _ _ E) as [j Hj]. rewrite Hj in *. simpl in *.
    destruct (where1 r) as [|j' w]; [discriminate|].
    injection Hr as ->. simpl. now rewrite Nat.add_0_r.
  - rewrite (find_index_not_existsb _ _ E) in Hr. simpl in Hr.
    destruct (where1 r); [|discriminate]. simpl. rewrite IH.
    destruct (find_index (existsb (fun b => b)) t) as [k|]; simpl; trivial.
    apply option_map_ext. intro j. f_equal. lia.
Qed.

Lemma existsb_map {A B : Type} (g : A -> B) (f : B -> bool) (l : list A) :
  existsb f (map g l) = existsb (fun a => f (g a)) l.
Proof.
  induction l as [|a t IH]; simpl; trivial. now rewrite IH.
Qed.

Lemma concat_abs (a : list (list Q)) :
  concat (map (map Qabs) a) = map Qabs (concat a).
Proof. symmetry. apply concat_map. Qed.

Lemma hd_error_map {A B : Type} (f : A -> B) (l : list A) :
  hd_error (map f l) = option_map f (hd_error l).
Proof. destruct l; reflexivity. Qed.

(** What [indx[0][0]] and [indx[1][0]] are, once the maximum exists. *)
Lemma indx_first (a : list (list Q)) (mx : Q) :
  Np.max (concat (map (map Qabs) a)) = Ok mx ->
  exists ix i j,
    indx a = Ok ix /\ Np.first (fst ix) = Ok i /\ Np.first (snd ix) = Ok j /\
    find_index (existsb (at_peak mx)) a = Some i /\
    find_index (at_peak mx) (nth i a []) = Some j.
Proof.
  intro Hmx. unfold indx. rewrite Hmx. cbn [Np.bind].
  destruct (max_inv _ _ Hmx) as [Hin _].
  rewrite concat_abs in Hin. apply in_map_iff in Hin.
  destruct Hin as [u [Eu Hu]]. apply in_concat in Hu.
  destruct Hu as [r [Hr Hur]].
  assert (Er : existsb (at_peak mx) r = true).
  { apply existsb_exists. exists u. split; trivial.
    unfold at_peak. rewrite Eu. apply Qeq_bool_refl. }
  destruct (find_index_exists (existsb (at_peak mx)) a r Hr Er) as [i Hi].
  destruct (find_index_some _ _ _ Hi) as [[ri [Hri Eri]] _].
  destruct (find_index_existsb _ _ Eri) as [j Hj].
  assert (Nri : nth i a [] = ri).
  { apply nth_error_nth. exact Hri. }
  eexists. exists i, j. split; [reflexivity|].
  unfold where2. cbn [fst snd]. unfold Np.first.
  rewrite !hd_error_map.
  assert (W : hd_error
                (where_rows 0
                   (map (map (fun v => Qeq_bool v mx)) (map (map Qabs) a))) =
              Some (i, j)).
  { rewrite where_rows_hd, map_map.
    rewrite (find_index_map (fun r => map (fun v => Qeq_bool v mx) (map Qabs r))
               (existsb (fun b => b)) a).
    rewrite (find_index_ext _ (existsb (at_peak mx))).
    2:{ intros r' _. now rewrite map_map, existsb_map. }
    rewrite Hi.
    change (@nil bool) with (map (fun v => Qeq_bool v mx) (map Qabs [])).
    rewrite (map_nth (fun r => map (fun v => Qeq_bool v mx) (map Qabs r)) a [] i).
    rewrite Nri, map_map, find_index_map. fold (at_peak mx).
    rewrite Hj. reflexivity. }
  rewrite W. cbn [option_map fst snd Np.of_option]. rewrite Nri. auto.
Qed.

End PeakLookup.

(** ** Peak lookup on maps that may hold NaN or infinite pixels *)

Section PeakLookupFl.

Lemma fl_max2_nan_r (x : fl) : fl_max2 x NaN = NaN.
Proof. destruct x; reflexivity. Qed.

Lemma fold_max2_nan (t : list fl) : fold_left fl_max2 t NaN = NaN.
Proof. induction t as [|y t IH]; simpl; trivial. Qed.

(** [np.max] of an array that holds a NaN is NaN. *)
Lemma fold_max2_in_nan (t : list fl) (x : fl) :
  In NaN (x :: t) -> fold_left fl_max2 t x = NaN.
Proof.
  revert x. induction t as [|y t IH]; intros x [E|H]; simpl.
  - now subst.
  - destruct H.
  - subst. apply fold_max2_nan.
  - destruct H as [E|H].
    + subst. rewrite fl_max2_nan_r. apply fold_max2_nan.
    + apply IH. now right.
Qed.

Lemma fmax_nan (l : list fl) : In NaN l -> Np.fmax l = Ok NaN.
Proof.
  destruct l as [|x t]; [intros []|]. intro H. simpl.
  now rewrite fold_max2_in_nan.
Qed.

Lemma Qgtb_irrefl (x : Q) : Qgtb x x = false.
Proof.
  unfold Qgtb. assert (E : Qle_bool x x = true) by (apply Qle_bool_iff, Qle_refl).
  now rewrite E.
Qed.

Lemma Qgtb_false (x y : Q) : Qgtb x y = false <-> x <= y.
Proof.
  unfold Qgtb. rewrite negb_false_iff. apply Qle_bool_iff.
Qed.

Lemma Qgtb_true (x y : Q) : Qgtb x y = true <-> y < x.
Proof.
  unfold Qgtb. rewrite negb_true_iff. split.
  - intro H. apply Qnot_le_lt. intro G. apply Qle_bool_iff in G. congruence.
  - intro H. destruct (Qle_bool x y) eqn:E; trivial.
    apply Qle_bool_iff in E. lra.
Qed.

Lemma fl_gtb_irrefl (x : fl) : fl_gtb x x = false.
Proof. destruct x; simpl; trivial. apply Qgtb_irrefl. Qed.

Lemma fl_gtb_asym (x y : fl) : fl_gtb y x = true -> fl_gtb x y = false.
Proof.
  destruct x, y; simpl; trivial; try discriminate.
  rewrite Qgtb_true, Qgtb_false. lra.
Qed.

(** "Not greater" is transitive on values that are numbers. *)
Lemma fl_gtb_trans (x y z : fl) :
  F64.not_nan y ->
  fl_gtb x y = false -> fl_gtb y z = false -> fl_gtb x z = false.
Proof.
  destruct x, y, z; simpl; intros N H1 H2; trivial; try discriminate;
    try contradiction.
  rewrite Qgtb_false in *. eapply Qle_trans; eauto.
Qed.

Lemma fl_max2_spec (x y : fl) :
  F64.not_nan x -> F64.not_nan y ->
  (fl_max2 x y = x \/ fl_max2 x y = y) /\
  fl_gtb x (fl_max2 x y) = false /\ fl_gtb y (fl_max2 x y) = false.
Proof.
  intros Nx Ny.
  assert (E : fl_max2 x y = if fl_gtb y x then y else x).
  { destruct x, y; trivial; contradiction. }
  rewrite E. destruct (fl_gtb y x) eqn:G.
  - split; [now right|]. split; [now apply fl_gtb_asym|apply fl_gtb_irrefl].
  - split; [now left|]. split; [apply fl_gtb_irrefl|trivial].
Qed.

Lemma fold_max2_spec (t : list fl) (x : fl) :
  Forall F64.not_nan (x :: t) ->
  let m := fold_left fl_max2 t x in
  In m (x :: t) /\ F64.not_nan m /\ forall v, In v (x :: t) -> fl_gtb v m = false.
Proof.
  revert x. induction t as [|y t IH]; intros x H; simpl.
  - inversion H; subst. split; [now left|]. split; trivial.
    intros v [<-|[]]. apply fl_gtb_irrefl.
  - inversion H as [|? ? Nx H']; subst. inversion H' as [|? ? Ny Ht]; subst.
    destruct (fl_max2_spec x y Nx Ny) as (C & Gx & Gy).
    assert (Nm : F64.not_nan (fl_max2 x y)) by (destruct C as [->| ->]; trivial).
    destruct (IH (fl_max2 x y) (Forall_cons _ Nm Ht)) as (I & N & G).
    simpl in I, N, G. split; [|split; trivial].
    + destruct I as [I|I]; [|auto]. rewrite <- I. destruct C as [->| ->]; auto.
    + pose proof (G _ (or_introl eq_refl)) as Gm.
      intros v [<-|[<-|Hv]].
      * apply (fl_gtb_trans _ (fl_max2 x y)); trivial.
      * apply (fl_gtb_trans _ (fl_max2 x y)); trivial.
      * apply G. now right.
Qed.

(** [np.max] of a nonempty array without NaN is one of its entries and
    no entry is greater. *)
Lemma fmax_ok (l : list fl) :
  l <> [] -> Forall F64.not_nan l ->
  exists m, Np.fmax l = Ok m /\ In m l /\ F64.not_nan m /\
            forall v, In v l -> fl_gtb v m = false.
Proof.
  destruct l as [|x t]; [congruence|]. intros _ H.
  exists (fold_left fl_max2 t x). split; [reflexivity|].
  apply (fold_max2_spec t x H).
Qed.

Lemma fl_eqb_refl (x : fl) : F64.not_nan x -> F64.eqb x x = true.
Proof.
  destruct x; simpl; trivial; [|intros []]. intros _. apply Qeq_bool_refl.
Qed.

Lemma abs_not_nan (v : fl) : F64.not_nan v -> F64.not_nan (fl_abs v).
Proof. destruct v; trivial. Qed.

Lemma concat_fl_abs (a : list (list fl)) :
  concat (map (map fl_abs) a) = map fl_abs (concat a).
Proof. symmetry. apply concat_map. Qed.

Lemma Forall_concat_rows {A : Type} (P : A -> Prop) (m : list (list A)) :
  Forall (Forall P) m -> Forall P (concat m).
Proof.
  induction 1 as [|r t Hr _ IH]; simpl; [constructor|].
  apply Forall_app. auto.
Qed.

(** [np.where] of a mask without a true entry. *)
Lemma where_from_false (i : nat) (m : list bool) :
  (forall b, In b m -> b = false) -> where_from i m = [].
Proof.
  revert i. induction m as [|b t IH]; intros i H; simpl; trivial.
  rewrite (H b (or_introl eq_refl)). apply IH. intros; apply H; now right.
Qed.

Lemma where_rows_false (i : nat) (m : list (list bool)) :
  (forall r b, In r m -> In b r -> b = false) -> where_rows i m = [].
Proof.
  revert i. induction m as [|r t IH]; intros i H; simpl; trivial.
  unfold where1. rewrite where_from_false by (intros b Hb; apply (H r b); auto; now left).
  simpl. apply IH. intros r' b Hr'. apply H. now right.
Qed.

(** On a map with a NaN pixel the maximum is NaN, nothing equals it and
    the lookup returns two empty index arrays. *)
Lemma indx_fl_nan (a : list (list fl)) :
  Exists (Exists (fun v => v = NaN)) a -> indx_fl a = Ok ([], []).
Proof.
  intro H. apply Exists_exists in H. destruct H as [r [Hr H]].
  apply Exists_exists in H. destruct H as [v [Hv ->]].
  unfold indx_fl. rewrite fmax_nan.
  2:{ rewrite concat_fl_abs. change NaN with (fl_abs NaN). apply in_map.
      apply in_concat. eauto. }
  cbn [Np.bind]. unfold where2. rewrite where_rows_false; [reflexivity|].
  intros r' b Hr' Hb. apply in_map_iff in Hr'. destruct Hr' as [r0 [<- _]].
  apply in_map_iff in Hb. destruct Hb as [u [<- _]]. now destruct u.
Qed.

(** What [indx[0][0]] and [indx[1][0]] are when the maximum is a number
    that the map holds. *)
Lemma indx_fl_first (a : list (list fl)) (mx : fl) :
  Np.fmax (concat (map (map fl_abs) a)) = Ok mx ->
  F64.not_nan mx -> In mx (concat (map (map fl_abs) a)) ->
  exists ix i j,
    indx_fl a = Ok ix /\ Np.first (fst ix) = Ok i /\ Np.first (snd ix) = Ok j /\
    find_index (existsb (at_peak_fl mx)) a = Some i /\
    find_index (at_peak_fl mx) (nth i a []) = Some j.
Proof.
  intros Hmx Nmx Hin. unfold indx_fl. rewrite Hmx. cbn [Np.bind].
  rewrite concat_fl_abs in Hin. apply in_map_iff in Hin.
  destruct Hin as [u [Eu Hu]]. apply in_concat in Hu.
  destruct Hu as [r [Hr Hur]].
  assert (Er : existsb (at_peak_fl mx) r = true).
  { apply existsb_exists. exists u. split; trivial.
    unfold at_peak_fl. rewrite Eu. now apply fl_eqb_refl. }
  destruct (find_index_exists (existsb (at_peak_fl mx)) a r Hr Er) as [i Hi].
  destruct (find_index_some _ _ _ Hi) as [[ri [Hri Eri]] _].
  destruct (find_index_existsb _ _ Eri) as [j Hj].
  assert (Nri : nth i a [] = ri).
  { apply nth_error_nth. exact Hri. }
  eexists. exists i, j. split; [reflexivity|].
  unfold where2. cbn [fst snd]. unfold Np.first.
  rewrite !hd_error_map.
  assert (W : hd_error
                (where_rows 0
                   (map (map (fun v => F64.eqb v mx)) (map (map fl_abs) a))) =
              Some (i, j)).
  { rewrite where_rows_hd, map_map.
    rewrite (find_index_map (fun r => map (fun v => F64.eqb v mx) (map fl_abs r))
               (existsb (fun b => b)) a).
    rewrite (find_index_ext _ (existsb (at_peak_fl mx))).
    2:{ intros r' _. now rewrite map_map, existsb_map. }
    rewrite Hi.
    change (@nil bool) with (map (fun v => F64.eqb v mx) (map fl_abs [])).
    rewrite (map_nth (fun r => map (fun v => F64.eqb v mx) (map fl_abs r)) a [] i).
    rewrite Nri, map_map, find_index_map. fold (at_peak_fl mx).
    rewrite Hj. reflexivity. }
  rewrite W. cbn [option_map fst snd Np.of_option]. rewrite Nri. auto.
Qed.

Lemma eqb_gtb (x y z : fl) :
  F64.eqb x y = true -> fl_gtb z y = false -> fl_gtb z x = false.
Proof.
  destruct x, y, z; simpl; trivial; try discriminate.
  intro E. apply Qeq_bool_eq in E. rewrite !Qgtb_false. lra.
Qed.

(** C9, as the cell behaves on the map that line 180 delivers: on a map
    with at least one pixel and no NaN pixel (infinities allowed) the
    lookup [np.where(abs(a) == np.max(abs(a)))] returns at least one
    position, so [indx[0][0]] and [indx[1][0]] are defined; they
    address a pixel of the map, and no pixel is greater in magnitude.
    On a map with a NaN pixel the maximum is NaN, which equals nothing:
    the lookup returns no position and both [indx[0][0]] and
    [indx[1][0]] raise IndexError. *)
Theorem indx_fl_total (a : list (list fl)) :
  concat a <> [] ->
  (Forall (Forall F64.not_nan) a ->
   exists ix i j,
     indx_fl a = Ok ix /\
     Np.first (fst ix) = Ok i /\ Np.first (snd ix) = Ok j /\
     exists r v, nth_error a i = Some r /\ nth_error r j = Some v /\
       forall u, In u (concat a) -> fl_gtb (fl_abs u) (fl_abs v) = false) /\
  (Exists (Exists (fun v => v = NaN)) a ->
   exists ix,
     indx_fl a = Ok ix /\
     Np.first (fst ix) = Raise IndexError /\ Np.first (snd ix) = Raise IndexError).
Proof.
  intro Hne. split.
  - intro Hn.
    destruct (fmax_ok (concat (map (map fl_abs) a))) as (mx & Hmx & Hin & Nmx & Hge).
    { rewrite concat_fl_abs. destruct (concat a); [congruence|discriminate]. }
    { rewrite concat_fl_abs. apply Forall_map.
      eapply Forall_impl; [|apply Forall_concat_rows, Hn].
      apply abs_not_nan. }
    destruct (indx_fl_first a mx Hmx Nmx Hin) as (ix & i & j & Hix & Hi & Hj & Fi & Fj).
    exists ix, i, j. repeat split; trivial.
    destruct (find_index_some _ _ _ Fi) as [[r [Hr _]] _].
    rewrite (nth_error_nth _ _ [] Hr) in Fj.
    destruct (find_index_some _ _ _ Fj) as [[v [Hv Ev]] _].
    exists r, v. repeat split; trivial.
    intros u Hu. unfold at_peak_fl in Ev. apply (eqb_gtb _ mx); trivial.
    apply Hge. rewrite concat_fl_abs. now apply in_map.
  - intro Hx. exists ([], []). split; [now apply indx_fl_nan|]. split; reflexivity.
Qed.

(** The theorem at a two by two map whose maximum occurs twice, and at
    the map that line 180 makes of a far field of zeros. *)
Lemma indx_fl_total_witness :
  (exists ix i j,
     indx_fl [[Fin 0; Fin 1]; [Fin 1; Fin 0]] = Ok ix /\
     Np.first (fst ix) = Ok i /\ Np.first (snd ix) = Ok j /\
     exists r v, nth_error [[Fin 0; Fin 1]; [Fin 1; Fin 0]] i = Some r /\
       nth_error r j = Some v /\
       forall u, In u (concat [[Fin 0; Fin 1]; [Fin 1; Fin 0]]) ->
                 fl_gtb (fl_abs u) (fl_abs v) = false) /\
  (exists ix,
     indx_fl [[NaN; NaN]; [NaN; NaN]] = Ok ix /\
     Np.first (fst ix) = Raise IndexError /\ Np.first (snd ix) = Raise IndexError).
Proof.
  split.
  - apply (indx_fl_total [[Fin 0; Fin 1]; [Fin 1; Fin 0]]).
    + simpl. discriminate.
    + repeat constructor.
  - apply (indx_fl_total [[NaN; NaN]; [NaN; NaN]]).
    + simpl. discriminate.
    + repeat constructor.
Defined.

(** C9 as stated fails: a far field of zeros gives, by line 180, a
    nonempty map whose pixels are all 0/0 = NaN; the lookup on it
    returns two empty index arrays and [indx[0][0]] raises IndexError. *)
Lemma indx_nan_map_fails :
  intensity [[0; 0]; [0; 0]] = Ok [[NaN; NaN]; [NaN; NaN]] /\
  concat [[NaN; NaN]; [NaN; NaN]] <> [] /\
  indx_fl [[NaN; NaN]; [NaN; NaN]] = Ok ([], []) /\
  Np.first (@nil nat) = Raise IndexError /\
  ~ (forall a : list (list fl),
       concat a <> [] ->
       exists ix i j,
         indx_fl a = Ok ix /\ Np.first (fst ix) = Ok i /\ Np.first (snd ix) = Ok j).
Proof.
  split; [reflexivity|]. split; [discriminate|]. split; [reflexivity|].
  split; [reflexivity|].
  intro H. destruct (H [[NaN; NaN]; [NaN; NaN]]) as (ix & i & j & Hix & Hi & _).
  - discriminate.
  - vm_compute in Hix. injection Hix as <-. discriminate Hi.
Qed.

End PeakLookupFl.

(** ** The peak index of the specification *)

Section RowMajor.

(** [peak_index] is the first occurrence of the global maximum in
    row-major order: the pixel it names holds the peak value, and every
    other pixel that holds it lies in a later row, or in the same row
    at a later column. *)
Lemma peak_index_row_major (a : list (list Q)) (i j : nat) :
  peak_index a = Some (i, j) ->
  exists pk, peak_value (concat a) = Some pk /\
    (exists v, nth_error (nth i a []) j = Some v /\ v == pk) /\
    forall i' r' j' v',
      nth_error a i' = Some r' -> nth_error r' j' = Some v' -> v' == pk ->
      (i < i')%nat \/ (i = i' /\ (j <= j')%nat).
Proof.
  unfold peak_index.
  destruct (peak_value (concat a)) as [pk|]; [|discriminate].
  destruct (find_index (existsb (fun v => Qeq_bool v pk)) a) as [i0|] eqn:Fi;
    [|discriminate].
  destruct (find_index (fun v => Qeq_bool v pk) (nth i0 a [])) as [j0|] eqn:Fj;
    [|discriminate].
  intro H. injection H as -> ->. exists pk. split; trivial.
  destruct (find_index_some _ _ _ Fi) as [_ Mi].
  destruct (find_index_some _ _ _ Fj) as [[v [Hv Ev]] Mj]. split.
  - exists v. split; trivial. now apply Qeq_bool_eq.
  - intros i' r' j' v' Hr Hv' E'. apply Qeq_eq_bool in E'.
    destruct (Nat.lt_trichotomy i' i) as [L|[->|G]]; [exfalso| |now left].
    + specialize (Mi i' r' L Hr).
      assert (T : existsb (fun v => Qeq_bool v pk) r' = true).
      { apply existsb_exists. exists v'. split; trivial.
        eapply nth_error_In; eauto. }
      congruence.
    + right. split; trivial.
      destruct (Nat.le_gt_cases j j') as [L|G]; trivial. exfalso.
      rewrite (nth_error_nth _ _ [] Hr) in Mj.
      specialize (Mj j' v' G Hv'). congruence.
Qed.

End RowMajor.

(** ** Beam-Width Extractor: cell and specification agree *)

Section Refinement.

Lemma pi_nonzero : ~ Np.pi == 0.
Proof. unfold Np.pi. intro H. discriminate H. Qed.

(** The conversion written in the cell, [v * 60 * 180 / np.pi], is the
    conversion [rad * (180 / pi) * 60] of the Coordinate Mapper. *)
Lemma arcmin_rad (v : Q) : arcmin v == rad_to_arcmin v.
Proof.
  unfold arcmin, rad_to_arcmin. field. apply pi_nonzero.
Qed.

Lemma col_column {A : Type} (m : list (list A)) (j : nat) :
  Np.col m j = Np.of_option IndexError (column m j).
Proof.
  unfold Np.col. induction m as [|r t IH]; simpl; trivial.
  unfold Np.get at 1. destruct (nth_error r j) as [v|]; simpl; trivial.
  rewrite IH. destruct (column t j); reflexivity.
Qed.

Lemma column_shape {A : Type} (d : A) (r c : nat) (m : list (list A)) (j : nat) :
  Np.shape r c m -> (j < c)%nat ->
  column m j = Some (map (fun w => nth j w d) m).
Proof.
  intros [_ Hs] Hj. induction Hs as [|w t Hw Ht IH]; simpl; trivial.
  rewrite IH. rewrite (nth_error_nth' w d) by lia. reflexivity.
Qed.

Lemma column_map {A B : Type} (f : A -> B) (m : list (list A)) (j : nat) :
  column (map (map f) m) j = option_map (map f) (column m j).
Proof.
  induction m as [|r t IH]; simpl; trivial.
  rewrite nth_error_map, IH.
  destruct (nth_error r j); simpl; trivial.
  destruct (column t j); reflexivity.
Qed.

(** The width of the row cut is the half-maximum width of one row of
    the angular axis, in arcminutes, against the same row of the map
    divided by the global maximum. *)
Lemma fwhm1_cut (a y_out : list (list Q)) (w : Q) :
  fwhm1 a y_out = Ok w ->
  exists i axis cut mx,
    nth_error y_out i = Some axis /\ nth_error a i = Some cut /\
    Np.max (concat (map (map Qabs) a)) = Ok mx /\
    half_width (map arcmin axis)
      (map (fun v => fl_div (Fin (Qabs v)) (Fin mx)) cut) = Ok w.
Proof.
  unfold fwhm1. destruct (indx a) as [ix|]; [|discriminate]. cbn [Np.bind].
  destruct (Np.first (fst ix)) as [i|]; [|discriminate]. cbn [Np.bind].
  unfold Np.row, Np.get. rewrite nth_error_map.
  destruct (nth_error y_out i) as [axis|] eqn:Ea; [|discriminate].
  destruct (nth_error a i) as [cut|] eqn:Ec; [|discriminate].
  cbn [Np.bind Np.of_option option_map].
  destruct (Np.max (concat (map (map Qabs) a))) as [mx|] eqn:Em; [|discriminate].
  cbn [Np.bind]. rewrite map_map. intro H.
  exists i, axis, cut, mx. repeat split; trivial.
Qed.

(** The same for the column cut. *)
Lemma fwhm2_cut (a x_out : list (list Q)) (w : Q) :
  fwhm2 a x_out = Ok w ->
  exists j axis cut mx,
    column x_out j = Some axis /\ column a j = Some cut /\
    Np.max (concat (map (map Qabs) a)) = Ok mx /\
    half_width (map arcmin axis)
      (map (fun v => fl_div (Fin (Qabs v)) (Fin mx)) cut) = Ok w.
Proof.
  unfold fwhm2. destruct (indx a) as [ix|]; [|discriminate]. cbn [Np.bind].
  destruct (Np.first (snd ix)) as [j|]; [|discriminate]. cbn [Np.bind].
  rewrite !col_column, column_map.
  destruct (column x_out j) as [axis|] eqn:Ea; [|discriminate].
  destruct (column a j) as [cut|] eqn:Ec; [|discriminate].
  cbn [Np.bind Np.of_option option_map].
  destruct (Np.max (concat (map (map Qabs) a))) as [mx|] eqn:Em; [|discriminate].
  cbn [Np.bind]. rewrite map_map. intro H.
  exists j, axis, cut, mx. repeat split; trivial.
Qed.

Lemma find_last_ext {A : Type} (f g : A -> bool) (l : list A) :
  (forall a, In a l -> f a = g a) -> find_last f l = find_last g l.
Proof.
  intro H. unfold find_last. f_equal. apply find_index_ext.
  intros a Ha. apply H. now apply in_rev.
Qed.

Lemma nth_map_lt {A B : Type} (f : A -> B) (l : list A) (k : nat) (d : A) (e : B) :
  (k < length l)%nat -> nth k (map f l) e = f (nth k l d).
Proof.
  intro H. rewrite (nth_indep _ e (f d)) by now rewrite length_map.
  apply map_nth.
Qed.

(** One cut.  [mx] is the global maximum of the map, [cut] a row or a
    column of the map that passes through it, [ang] the matching row or
    column of the angular axis.  The cell divides by the global maximum,
    the specification by the peak of the cut: the same samples are
    above one half, and the widths agree. *)
Lemma cut_agree (ang cut : list Q) (mx : Q) :
  length ang = length cut ->
  Forall (fun v => 0 <= v) cut ->
  0 < mx ->
  (exists v, In v cut /\ v == mx) ->
  (forall v, In v cut -> v <= mx) ->
  exists w w',
    half_width (map arcmin ang)
      (map (fun v => fl_div (Fin v) (Fin mx)) (map Qabs cut)) = Ok w /\
    cut_fwhm ang cut = Some w' /\ w == w'.
Proof.
  intros Hlen Hpos Hmx [v0 [Hv0 Ev0]] Hle.
  assert (Hpk : exists pk, peak_value cut = Some pk /\ pk == mx).
  { destruct cut as [|c0 t]; [destruct Hv0|].
    exists (fold_left Qmax t c0). split; [reflexivity|].
    apply Qle_antisym.
    - apply Hle, fold_max_in.
    - rewrite <- Ev0. now apply fold_max_ge. }
  destruct Hpk as [pk [Hpk Epk]].
  set (f := fun v => above (fl_div (Fin (Qabs v)) (Fin mx))).
  set (g := fun v => Qgtb (v / pk) (1 # 2)).
  assert (FG : forall v, In v cut -> f v = g v).
  { intros v Hv. unfold f, g, above, fl_div.
    destruct (Qeq_bool mx 0) eqn:E.
    - apply Qeq_bool_eq in E. lra.
    - simpl. apply Qgtb_comp; [|reflexivity].
      rewrite Forall_forall in Hpos. rewrite (Qabs_pos v (Hpos v Hv)).
      now rewrite Epk. }
  assert (G0 : g v0 = true).
  { unfold g. apply Qgtb_lt. rewrite Ev0, Epk.
    assert (E1 : mx / mx == 1) by (field; lra).
    rewrite E1. reflexivity. }
  destruct (find_index_exists g cut v0 Hv0 G0) as [l Hl].
  destruct (find_last_exists g cut l Hl) as [r Hr].
  pose proof (find_index_lt _ _ _ Hl) as Ll.
  pose proof (find_last_lt _ _ _ Hr) as Lr.
  exists (Qabs (nth l (map arcmin ang) 0 - nth r (map arcmin ang) 0)).
  exists (Qabs (rad_to_arcmin (nth l ang 0) - rad_to_arcmin (nth r ang 0))).
  split; [|split].
  - apply half_width_ok.
    + rewrite !length_map. lia.
    + rewrite map_map, find_index_map. fold f.
      now rewrite (find_index_ext f g cut FG).
    + rewrite map_map, find_last_map. fold f.
      now rewrite (find_last_ext f g cut FG).
  - unfold cut_fwhm. rewrite Hpk. fold g. rewrite Hl, Hr.
    rewrite (nth_error_nth' ang 0) by lia.
    rewrite (nth_error_nth' ang 0) by lia. reflexivity.
  - rewrite (nth_map_lt arcmin ang l 0 0) by lia.
    rewrite (nth_map_lt arcmin ang r 0 0) by lia.
    now rewrite !arcmin_rad.
Qed.

Lemma shape_row {A : Type} (r c : nat) (m : list (list A)) (i : nat) :
  Np.shape r c m -> (i < r)%nat ->
  exists w, nth_error m i = Some w /\ length w = c.
Proof.
  intros [Hl Hs] Hi. destruct (nth_error m i) as [w|] eqn:E.
  - exists w. split; trivial. rewrite Forall_forall in Hs.
    apply Hs. eapply nth_error_In; eauto.
  - apply nth_error_None in E. lia.
Qed.

Lemma shape_in {A : Type} (r c : nat) (m : list (list A)) (w : list A) :
  Np.shape r c m -> In w m -> length w = c.
Proof.
  intros [_ Hs] Hw. rewrite Forall_forall in Hs. now apply Hs.
Qed.

Lemma shape_map {A B : Type} (f : A -> B) (r c : nat) (m : list (list A)) :
  Np.shape r c m -> Np.shape r c (map (map f) m).
Proof.
  intros [Hl Hs]. split; [now rewrite length_map|].
  apply Forall_map. eapply Forall_impl; [|exact Hs].
  simpl. intros w Hw. now rewrite length_map.
Qed.

Lemma existsb_ext_in {A : Type} (f g : A -> bool) (l : list A) :
  (forall a, In a l -> f a = g a) -> existsb f l = existsb g l.
Proof.
  induction l as [|a t IH]; simpl; intro H; trivial.
  rewrite (H a (or_introl eq_refl)), IH; auto.
Qed.

Lemma column_abs (r c : nat) (a : list (list Q)) (j : nat) :
  Np.shape r c a -> (j < c)%nat ->
  column (map (map Qabs) a) j = Some (map Qabs (map (fun w => nth j w 0) a)).
Proof.
  intros Sa Hj.
  rewrite (column_shape 0 r c _ j (shape_map Qabs r c a Sa) Hj).
  f_equal. rewrite !map_map. apply map_ext.
  intro w. exact (map_nth Qabs w 0 j).
Qed.

(** The facts about a map that both descriptions rest on: the maximum of
    the magnitudes exists, is positive, bounds every pixel, and is the
    peak value of the map itself. *)
Lemma intensity_peak (r c : nat) (a : list (list Q)) :
  intensity_map r c a ->
  exists mx pk,
    Np.max (concat (map (map Qabs) a)) = Ok mx /\ 0 < mx /\
    (forall w v, In w a -> In v w -> 0 <= v <= mx) /\
    peak_value (concat a) = Some pk /\ pk == mx.
Proof.
  intros (Sa & Hr & Hc & Hnn & Hex).
  assert (Nn : forall w v, In w a -> In v w -> 0 <= v).
  { intros w v Hw Hv. rewrite Forall_forall in Hnn.
    specialize (Hnn w Hw). rewrite Forall_forall in Hnn. now apply Hnn. }
  apply Exists_exists in Hex. destruct Hex as [w0 [Hw0 Hex]].
  apply Exists_exists in Hex. destruct Hex as [p0 [Hp0 Pp0]].
  assert (Ip0 : In p0 (concat a)) by (apply in_concat; eauto).
  destruct (max_ok (concat (map (map Qabs) a))) as [mx [Hmx [Hin Hge]]].
  { rewrite concat_abs. destruct (concat a); [destruct Ip0|discriminate]. }
  rewrite concat_abs in Hin, Hge.
  assert (Le : forall w v, In w a -> In v w -> 0 <= v <= mx).
  { intros w v Hw Hv. split; [eapply Nn; eauto|].
    apply Qle_trans with (Qabs v); [apply Qle_Qabs|].
    apply Hge, in_map, in_concat. eauto. }
  destruct (concat a) as [|u t] eqn:Ec; [destruct Ip0|].
  exists mx, (fold_left Qmax t u).
  split; [exact Hmx|]. split.
  { apply Qlt_le_trans with p0; trivial. now apply (Le w0 p0). }
  split; [exact Le|]. split; [reflexivity|].
  apply Qle_antisym.
  - pose proof (fold_max_in t u) as Hp. rewrite <- Ec in Hp.
    apply in_concat in Hp. destruct Hp as [w [Hw Hv]].
    now apply (Le w _ Hw Hv).
  - apply in_map_iff in Hin. destruct Hin as [u' [Eu Hu]].
    pose proof Hu as Hu'. rewrite <- Ec in Hu'.
    apply in_concat in Hu'. destruct Hu' as [w [Hw Hv]].
    rewrite <- Eu, (Qabs_pos u') by (eapply Nn; eauto).
    now apply fold_max_ge.
Qed.

(** C1: on an intensity map with its two angular axes the cell returns
    what the contract describes: the grid index of the global maximum,
    first occurrence in row-major order; the row and the column cut
    through it; for each cut the absolute difference, in arcminutes, of
    the angular coordinates of the leftmost and the rightmost sample
    whose normalised intensity is strictly above 0.5; the average of
    the two widths. *)
Theorem fwhm_meets_contract (r c : nat) (a x_ang y_ang : list (list Q)) :
  intensity_map r c a -> Np.shape r c x_ang -> Np.shape r c y_ang ->
  exists w w',
    fwhm a x_ang y_ang = Ok w /\ fwhm_spec a x_ang y_ang = Some w' /\ w == w'.
Proof.
  intros Ia Sx Sy.
  destruct (intensity_peak r c a Ia) as (mx & pk & Hmx & Pmx & Le & Hpk & Epk).
  destruct Ia as (Sa & Hr & Hc & _ & _).
  destruct (indx_first a mx Hmx) as (ix & i & j & Hix & Hi & Hj & Fi & Fj).
  destruct (find_index_some _ _ _ Fi) as [[ri [Hri _]] _].
  pose proof (nth_error_nth _ _ [] Hri) as Nri. rewrite Nri in Fj.
  destruct (find_index_some _ _ _ Fj) as [[v0 [Hv0 Ev0]] _].
  unfold at_peak in Ev0. apply Qeq_bool_eq in Ev0.
  assert (Iri : In ri a) by (eapply nth_error_In; eauto).
  assert (Iv0 : In v0 ri) by (eapply nth_error_In; eauto).
  rewrite (Qabs_pos v0) in Ev0 by (apply (Le ri v0 Iri Iv0)).
  assert (Li : (i < r)%nat).
  { destruct Sa as [<- _]. apply nth_error_Some. congruence. }
  assert (Lj : (j < c)%nat).
  { rewrite <- (shape_in r c a ri Sa Iri). apply nth_error_Some. congruence. }
  (* the row cut *)
  destruct (shape_row r c x_ang i Sx Li) as [rang [Hrang Lrang]].
  destruct (cut_agree rang ri mx) as (w1 & w1' & H1 & H1' & E1); trivial.
  { rewrite Lrang. symmetry. apply (shape_in r c a ri Sa Iri). }
  { apply Forall_forall. intros v Hv. apply (Le ri v Iri Hv). }
  { exists v0. auto. }
  { intros v Hv. apply (Le ri v Iri Hv). }
  (* the column cut *)
  pose proof (column_shape 0 r c a j Sa Lj) as Hccut.
  pose proof (column_shape 0 r c y_ang j Sy Lj) as Hcang.
  set (ccut := map (fun w => nth j w 0) a) in *.
  set (cang := map (fun w => nth j w 0) y_ang) in *.
  assert (Icol : forall v, In v ccut -> 0 <= v <= mx).
  { intros v Hv. apply in_map_iff in Hv. destruct Hv as [w [<- Hw]].
    apply (Le w _ Hw). apply nth_In. rewrite (shape_in r c a w Sa Hw). exact Lj. }
  destruct (cut_agree cang ccut mx) as (w2 & w2' & H2 & H2' & E2); trivial.
  { unfold cang, ccut. rewrite !length_map.
    destruct Sa as [-> _]. destruct Sy as [-> _]. reflexivity. }
  { apply Forall_forall. intros v Hv. apply (Icol v Hv). }
  { exists v0. split; trivial. unfold ccut.
    rewrite <- (nth_error_nth _ _ 0 Hv0).
    apply (in_map (fun w => nth j w 0) a ri Iri). }
  { intros v Hv. apply (Icol v Hv). }
  exists ((w1 + w2) / 2), ((w1' + w2') / 2). split; [|split].
  - unfold fwhm, fwhm1, fwhm2. rewrite Hix. cbn [Np.bind]. rewrite Hi, Hj.
    cbn [Np.bind]. unfold Np.row, Np.get.
    rewrite Hrang, nth_error_map, Hri, Hmx. cbn [Np.bind Np.of_option option_map].
    rewrite H1. cbn [Np.bind].
    rewrite !col_column, Hcang, (column_abs r c a j Sa Lj).
    cbn [Np.bind Np.of_option]. fold ccut. rewrite H2. reflexivity.
  - unfold fwhm_spec, peak_index. rewrite Hpk.
    assert (P : forall w v, In w a -> In v w ->
                  Qeq_bool v pk = at_peak mx v).
    { intros w v Hw Hv. unfold at_peak.
      rewrite (Qeqb_comp v (Qabs v) ltac:(symmetry; apply Qabs_pos, (Le w v Hw Hv))
                 pk mx Epk).
      reflexivity. }
    rewrite (find_index_ext _ (existsb (at_peak mx)) a).
    2:{ intros w Hw. apply existsb_ext_in. intros v Hv. apply (P w v Hw Hv). }
    rewrite Fi, Nri.
    rewrite (find_index_ext _ (at_peak mx) ri).
    2:{ intros v Hv. apply (P ri v Iri Hv). }
    rewrite Fj, Hri, Hrang, Hccut, Hcang, H1', H2'. reflexivity.
  - now rewrite E1, E2.
Qed.

End Refinement.

(** The theorem at a three by three map with its peak at the center. *)
Lemma fwhm_meets_contract_witness :
  exists w w',
    fwhm [[0; 1 # 4; 0]; [1 # 4; 1; 6 # 10]; [0; 6 # 10; 1 # 10]]
         [[-1; 0; 1]; [-1; 0; 1]; [-1; 0; 1]]
         [[-1; -1; -1]; [0; 0; 0]; [1; 1; 1]] = Ok w /\
    fwhm_spec [[0; 1 # 4; 0]; [1 # 4; 1; 6 # 10]; [0; 6 # 10; 1 # 10]]
         [[-1; 0; 1]; [-1; 0; 1]; [-1; 0; 1]]
         [[-1; -1; -1]; [0; 0; 0]; [1; 1; 1]] = Some w' /\
    w == w'.
Proof.
  apply (fwhm_meets_contract 3 3).
  - split; [split; [reflexivity|repeat constructor]|].
    split; [lia|]. split; [lia|]. split.
    + repeat constructor; discriminate.
    + apply Exists_cons_tl, Exists_cons_hd, Exists_cons_tl, Exists_cons_hd.
      reflexivity.
  - split; [reflexivity|repeat constructor].
  - split; [reflexivity|repeat constructor].
Defined.

(** ** Field Synthesizer *)

Section Rounding.

Lemma pow2_pos (e : Z) : 0 < F64.pow2 e.
Proof. unfold F64.pow2. apply Qpower_0_lt. reflexivity. Qed.

Lemma pow2_split (a b : Z) : F64.pow2 (a + b) == F64.pow2 a * F64.pow2 b.
Proof. unfold F64.pow2. apply Qpower_plus. discriminate. Qed.

Lemma pow2_nat (n : Z) : (0 <= n)%Z -> F64.pow2 n == inject_Z (2 ^ n).
Proof. intro H. unfold F64.pow2. now rewrite Zpower_Qpower. Qed.

Lemma rne_nonneg (x : Q) : 0 <= x -> (0 <= F64.rne x)%Z.
Proof.
  intro H. unfold F64.rne.
  assert (F : (0 <= Qfloor x)%Z).
  { change 0%Z with (Qfloor 0). now apply Qfloor_resp_le. }
  destruct (Qcompare _ _); [destruct (Z.even _)|..]; lia.
Qed.

(** Rounding to the nearest integer does not pass an integer bound. *)
Lemma rne_le (x : Q) (K : Z) : x <= inject_Z K -> (F64.rne x <= K)%Z.
Proof.
  intro H. unfold F64.rne.
  assert (F : (Qfloor x <= K)%Z).
  { rewrite <- (Qfloor_Z K). now apply Qfloor_resp_le. }
  destruct (Z.eq_dec (Qfloor x) K) as [E|N].
  - pose proof (Qfloor_le x) as L. rewrite E in *.
    assert (C : Qcompare (x - inject_Z K) (1 # 2) = Lt).
    { apply (proj1 (Qlt_alt _ _)). lra. }
    rewrite C. lia.
  - destruct (Qcompare _ _); [destruct (Z.even _)|..]; lia.
Qed.

Lemma Qabs_pos_eq (v : Q) : 0 < v -> Qabs v = v.
Proof.
  destruct v as [n d]. unfold Qlt, Qabs. simpl. intro H.
  f_equal. apply Z.abs_eq. lia.
Qed.

(** A positive number below 8 lies in a binade of exponent at most 2. *)
Lemma ilog2_small (v : Q) : 0 < v -> v < 8 -> (F64.ilog2 v <= 2)%Z.
Proof.
  destruct v as [n d]. intros P L. unfold F64.ilog2. cbn [Qnum Qden].
  unfold Qlt in P, L. simpl in P, L.
  assert (K : (Z.log2 n <= 3 + Z.log2 (Zpos d))%Z).
  { rewrite <- (Z.log2_mul_pow2 (Zpos d) 3) by lia.
    apply Z.log2_le_mono. change (2 ^ 3)%Z with 8%Z. lia. }
  destruct (Qle_bool _ _) eqn:E; [|lia].
  destruct (Z.eq_dec (Z.log2 n - Z.log2 (Zpos d)) 3) as [E3|N3]; [|lia].
  exfalso. rewrite E3 in E. apply Qle_bool_iff in E.
  change (F64.pow2 3) with 8 in E. unfold Qle in E. simpl in E. lia.
Qed.

(** Rounding keeps a positive number that is at most [2 * pi] in that
    range: [2 * pi] is itself a float64, a multiple of [2^-50], and the
    grid of the floats below 8 is at least that fine. *)
Lemma round_two_pi (v : Q) :
  0 < v -> v <= 2 * Np.pi ->
  exists q, F64.round v = Fin q /\ 0 <= q /\ q <= 2 * Np.pi.
Proof.
  intros P L. unfold F64.round.
  assert (N0 : Qeq_bool v 0 = false).
  { destruct (Qeq_bool v 0) eqn:E0; trivial. apply Qeq_bool_eq in E0. lra. }
  rewrite N0.
  set (e := F64.ulp_exp v).
  assert (Ee : (e <= -50)%Z).
  { unfold e, F64.ulp_exp. rewrite (Qabs_pos_eq v P).
    assert (v < 8) by (unfold Np.pi in L; lra).
    pose proof (ilog2_small v P H). lia. }
  assert (Ge : (-1074 <= e)%Z) by (unfold e, F64.ulp_exp; lia).
  pose proof (pow2_pos e) as Pe.
  set (K := (7074237752028440 * 2 ^ (-50 - e))%Z).
  assert (TK : 2 * Np.pi == inject_Z K * F64.pow2 e).
  { unfold K. rewrite inject_Z_mult, <- pow2_nat by lia.
    rewrite <- Qmult_assoc, <- pow2_split.
    replace (-50 - e + e)%Z with (-50)%Z by lia. reflexivity. }
  set (x := v / F64.pow2 e).
  assert (Ex : v == x * F64.pow2 e) by (unfold x; field; lra).
  assert (X0 : 0 <= x) by (unfold x; apply Qle_shift_div_l; lra).
  assert (XK : x <= inject_Z K).
  { unfold x. apply Qle_shift_div_r; [trivial|]. now rewrite <- TK. }
  pose proof (rne_nonneg x X0) as R0. pose proof (rne_le x K XK) as RK.
  set (n := F64.rne x) in *.
  assert (I0 : 0 <= inject_Z n) by (change 0 with (inject_Z 0); now rewrite <- Zle_Qle).
  assert (IK : inject_Z n <= inject_Z K) by (now rewrite <- Zle_Qle).
  set (r := Qred (inject_Z n * F64.pow2 e)).
  assert (Er : r == inject_Z n * F64.pow2 e) by apply Qred_correct.
  assert (r0 : 0 <= r) by (rewrite Er; nra).
  assert (rK : r <= 2 * Np.pi) by (rewrite Er, TK; nra).
  assert (O : Qle_bool (F64.pow2 1024) (Qabs r) = false).
  { destruct (Qle_bool _ _) eqn:O; trivial. apply Qle_bool_iff in O.
    rewrite Qabs_pos in O by trivial.
    assert (B : 8 <= F64.pow2 1024) by (vm_compute; discriminate).
    unfold Np.pi in rK. lra. }
  rewrite O. exists r. auto.
Qed.

End Rounding.

Section Phase.

(** The modulus [2 * np.pi] is computed without rounding. *)
Lemma two_pi_double :
  F64.mul (Fin 2) (Fin Np.pi) = Fin (884279719003555 # 140737488355328).
Proof. vm_compute. reflexivity. Qed.

(** The remainder of [fmod] is smaller in magnitude than the divisor. *)
Lemma fmod_range (a b : Q) :
  0 < b -> - b < F64.fmod a b /\ F64.fmod a b < b.
Proof.
  intro Hb. unfold F64.fmod.
  set (q := a / b).
  assert (Ea : a == q * b) by (unfold q; field; lra).
  destruct (Qle_bool 0 q) eqn:S.
  - pose proof (Qfloor_le q) as L. pose proof (Qlt_floor q) as U.
    rewrite inject_Z_plus in U. change (inject_Z 1) with 1 in U.
    assert (F0 : 0 <= inject_Z (Qfloor q)).
    { change 0 with (inject_Z 0). rewrite <- Zle_Qle.
      change 0%Z with (Qfloor 0). apply Qfloor_resp_le.
      now apply Qle_bool_iff. }
    set (f := inject_Z (Qfloor q)) in *. split; nra.
  - assert (Lq : q < 0).
    { apply Qnot_le_lt. intro G. apply Qle_bool_iff in G. congruence. }
    pose proof (Qle_ceiling q) as U. pose proof (Qceiling_lt q) as L.
    replace (Qceiling q - 1)%Z with (Qceiling q + (-1))%Z in L by lia.
    rewrite inject_Z_plus in L. change (inject_Z (-1)) with (-1 # 1) in L.
    set (f := inject_Z (Qceiling q)) in *. split; nra.
Qed.

(** [np.mod] by [2 * np.pi]: a finite argument gives a number from 0 to
    [2 * pi], both ends included; any other argument gives NaN. *)
Lemma mod_two_pi (x : fl) :
  match x with
  | Fin _ =>
      exists q, F64.mod_ x (Fin (884279719003555 # 140737488355328)) = Fin q /\
                0 <= q /\ q <= 2 * Np.pi
  | _ => F64.mod_ x (Fin (884279719003555 # 140737488355328)) = NaN
  end.
Proof.
  set (tp := 884279719003555 # 140737488355328).
  assert (Etp : tp == 2 * Np.pi) by reflexivity.
  assert (Ptp : 0 < tp) by reflexivity.
  destruct x as [a| | |]; try reflexivity.
  unfold F64.mod_.
  change (Qeq_bool tp 0) with false. cbv iota.
  destruct (fmod_range a tp Ptp) as [Lo Hi].
  set (r := F64.fmod a tp) in *.
  destruct (Qeq_bool r 0) eqn:Z.
  - exists 0. split; [reflexivity|]. split; [apply Qle_refl|]. rewrite <- Etp. lra.
  - change (F64.negative (Fin tp)) with false. cbn [xorb F64.negative].
    destruct (Qle_bool 0 r) eqn:S; cbn [negb].
    + apply Qle_bool_iff in S. exists (Qred r). split; [reflexivity|].
      rewrite Qred_correct, <- Etp. split; lra.
    + assert (Ln : r < 0).
      { apply Qnot_le_lt. intro G. apply Qle_bool_iff in G. congruence. }
      apply round_two_pi; rewrite <- ?Etp; lra.
Qed.

(** C5, as the line behaves in float64: for every pathlength array,
    every wavenumber and every summation order of the mean, [p_sim] has
    one phase per ray; where the argument
    [k * (P - mean P) / 1e3 / 2] of [np.mod] is a finite number the
    phase is a number from 0 to [2 pi], the upper end included; where
    it is not, the phase is NaN. *)
Theorem p_sim_closed_range (mean : list fl -> fl) (k : fl) (p : list fl) :
  Forall2
    (fun v ph =>
       match F64.div (F64.div (F64.mul k (F64.sub v (mean p))) (Fin 1000)) (Fin 2) with
       | Fin _ => exists q, ph = Fin q /\ 0 <= q /\ q <= 2 * Np.pi
       | _ => ph = NaN
       end)
    p (p_sim mean k p).
Proof.
  unfold p_sim. rewrite two_pi_double. generalize (mean p). intro m.
  induction p as [|v t IH]; simpl; constructor; trivial.
  apply mod_two_pi.
Qed.

(** C5 as stated fails: with the wavenumber of the notebook
    ([lambda_ = 0.002]) three equal pathlengths of 0.1 have a mean that
    is rounded up by one unit in the last place; every deviation is
    then a tiny negative number, and [np.mod] returns the modulus
    [2 * pi] itself, which the half-open interval excludes. *)
Lemma p_sim_reaches_two_pi :
  let k := kappa (F64.round (2 # 1000)) in
  let p := map F64.round [1 # 10; 1 # 10; 1 # 10] in
  let tp := 884279719003555 # 140737488355328 in
  F64.mean_short p = Fin (7205759403792795 # 72057594037927936) /\
  p_sim F64.mean_short k p = [Fin tp; Fin tp; Fin tp] /\
  tp == 2 * Np.pi /\
  ~ (forall mean k p,
       Forall (fun ph => exists q, ph = Fin q /\ 0 <= q /\ q < 2 * Np.pi)
              (p_sim mean k p)).
Proof.
  split; [vm_compute; reflexivity|].
  split; [vm_compute; reflexivity|]. split; [reflexivity|].
  intro H.
  specialize (H F64.mean_short (kappa (F64.round (2 # 1000)))
                (map F64.round [1 # 10; 1 # 10; 1 # 10])).
  vm_compute in H. inversion H as [|? ? [q [E [_ L]]] _].
  injection E as <-. vm_compute in L. discriminate.
Qed.

End Phase.

(** The theorem at the notebook's wavenumber and three pathlengths. *)
Lemma p_sim_closed_range_witness :
  let k := kappa (F64.round (2 # 1000)) in
  let p := map F64.round [1 # 10; 2 # 10; 3 # 10] in
  Forall2
    (fun v ph =>
       match F64.div (F64.div (F64.mul k (F64.sub v (F64.mean_short p))) (Fin 1000))
                     (Fin 2) with
       | Fin _ => exists q, ph = Fin q /\ 0 <= q /\ q <= 2 * Np.pi
       | _ => ph = NaN
       end)
    p (p_sim F64.mean_short k p).
Proof.
  exact (p_sim_closed_range F64.mean_short (kappa (F64.round (2 # 1000)))
           (map F64.round [1 # 10; 2 # 10; 3 # 10])).
Defined.

Section Amplitude.

Lemma map_amp_combine (u : list fl) (v : list Q) :
  length u = length v ->
  map amp (map (fun p => mkSample (fst p) (snd p)) (combine u v)) = u.
Proof.
  revert v. induction u as [|a t IH]; intros [|b v] H; simpl in *;
    try discriminate; trivial.
  f_equal. apply IH. congruence.
Qed.

(** The running [np.max] over finite values is one of them and bounds
    them all. *)
Lemma fold_fl_max_fin (t : list Q) (x : Q) :
  exists m, fold_left fl_max2 (map Fin t) (Fin x) = Fin m /\
    In m (x :: t) /\ forall v, In v (x :: t) -> v <= m.
Proof.
  revert x. induction t as [|y t IH]; intro x; simpl.
  - exists x. split; trivial. split; [now left|].
    intros v [<-|[]]. apply Qle_refl.
  - destruct (Qgtb y x) eqn:E.
    + apply Qgtb_lt in E.
      destruct (IH y) as [m [Hm [Hin Hge]]]. exists m.
      split; trivial. split; [now right|].
      intros v [<-|Hv]; [|now apply Hge].
      apply Qle_trans with y; [lra|]. apply Hge. now left.
    + apply Qgtb_le in E.
      destruct (IH x) as [m [Hm [Hin Hge]]]. exists m.
      split; trivial. split.
      * destruct Hin as [<-|Hin]; [now left|now right; right].
      * intros v [<-|[<-|Hv]].
        -- apply Hge. now left.
        -- apply Qle_trans with x; trivial. apply Hge. now left.
        -- apply Hge. now right.
Qed.

Lemma fmax_fin (l : list Q) :
  l <> [] ->
  exists m, Np.fmax (map Fin l) = Ok (Fin m) /\ In m l /\
    forall v, In v l -> v <= m.
Proof.
  destruct l as [|x t]; [congruence|]. intros _.
  destruct (fold_fl_max_fin t x) as [m [Hm H]].
  exists m. simpl. now rewrite Hm.
Qed.

Lemma fl_div_fin (x y : Q) : ~ y == 0 -> fl_div (Fin x) (Fin y) = Fin (x / y).
Proof.
  intro H. unfold fl_div. destruct (Qeq_bool y 0) eqn:E; trivial.
  apply Qeq_bool_eq in E. contradiction.
Qed.

Lemma noise_pos : 0 < noise.
Proof. reflexivity. Qed.

(** C4, for amplitude arrays that are amplitudes: when no entry is
    negative and some entry is positive, the field after the normalize,
    add-noise-floor and renormalize steps has one sample per ray, every
    magnitude is positive and at most 1, and some magnitude is 1. *)
Theorem beam_sim_unit_peak (a p : list Q) :
  length a = length p ->
  Forall (fun v => 0 <= v) a ->
  Exists (fun v => 0 < v) a ->
  exists field,
    beam_sim a p = Ok field /\ length field = length a /\
    Forall unit_bounded field /\ Exists unit_peak field.
Proof.
  intros Hlen Hnn Hex.
  rewrite Forall_forall in Hnn. apply Exists_exists in Hex.
  destruct Hex as [p0 [Hp0 Pp0]].
  destruct (max_ok (map Qabs a)) as [m1 [Hm1 [Him1 Hge1]]].
  { destruct a; [destruct Hp0|discriminate]. }
  assert (B1 : forall v, In v a -> 0 <= v <= m1).
  { intros v Hv. split; [now apply Hnn|].
    apply Qle_trans with (Qabs v); [apply Qle_Qabs|]. apply Hge1. now apply in_map. }
  assert (P1 : 0 < m1).
  { apply Qlt_le_trans with p0; trivial. now apply B1. }
  set (vs := map (fun v => v / m1 + noise) a).
  assert (E2 : map (fun v => fl_add v (Fin noise))
                 (map (fun v => fl_div (Fin v) (Fin m1)) a) = map Fin vs).
  { unfold vs. rewrite !map_map. apply map_ext. intro v.
    rewrite fl_div_fin by lra. reflexivity. }
  pose proof noise_pos as Pn.
  assert (Bv : forall v, In v vs -> noise <= v <= 1 + noise).
  { intros v Hv. unfold vs in Hv. apply in_map_iff in Hv.
    destruct Hv as [u [<- Hu]]. destruct (B1 u Hu) as [U0 U1].
    assert (0 <= u / m1) by (apply Qle_shift_div_l; lra).
    assert (u / m1 <= 1) by (apply Qle_shift_div_r; lra).
    split; lra. }
  destruct (fmax_fin vs) as [m2 [Hm2 [Him2 Hge2]]].
  { unfold vs. destruct a; [destruct Hp0|discriminate]. }
  assert (P2 : 0 < m2) by (destruct (Bv m2 Him2); lra).
  set (ws := map (fun v => v / m2) vs).
  assert (E3 : map (fun v => fl_div v (Fin m2)) (map Fin vs) = map Fin ws).
  { unfold ws. rewrite !map_map. apply map_ext. intro v.
    rewrite fl_div_fin by lra. reflexivity. }
  assert (L3 : length (map Fin ws) = length p).
  { unfold ws, vs. now rewrite !length_map. }
  eexists. split; [|split; [|split]].
  - unfold beam_sim. rewrite Hm1. cbn [Np.bind]. rewrite E2, Hm2. cbn [Np.bind].
    rewrite E3. unfold broadcast. rewrite L3, Nat.eqb_refl. reflexivity.
  - rewrite length_map, length_combine, L3, Hlen. apply Nat.min_id.
  - apply Forall_forall. intros s Hs.
    assert (Ha : In (amp s) (map Fin ws)).
    { rewrite <- (map_amp_combine (map Fin ws) p L3). now apply in_map. }
    apply in_map_iff in Ha. destruct Ha as [w [Ew Hw]].
    unfold ws in Hw. apply in_map_iff in Hw. destruct Hw as [v [<- Hv]].
    destruct (Bv v Hv) as [V0 V1]. pose proof (Hge2 v Hv) as V2.
    assert (W0 : 0 < v / m2) by (apply Qlt_shift_div_l; lra).
    assert (W1 : v / m2 <= 1) by (apply Qle_shift_div_r; lra).
    exists (Qabs (v / m2)). unfold magnitude. rewrite <- Ew. split; [reflexivity|].
    rewrite Qabs_pos by lra. split; trivial.
  - apply Exists_exists.
    assert (Hw : In (Fin (m2 / m2)) (map Fin ws)).
    { apply in_map. unfold ws. now apply (in_map (fun v => v / m2)). }
    rewrite <- (map_amp_combine (map Fin ws) p L3) in Hw.
    apply in_map_iff in Hw. destruct Hw as [s [Es Hs]].
    exists s. split; trivial.
    exists (Qabs (m2 / m2)). unfold magnitude. rewrite Es. split; [reflexivity|].
    assert (E : m2 / m2 == 1) by (field; lra).
    rewrite E. reflexivity.
Qed.

(** The theorem at three rays. *)
Lemma beam_sim_unit_peak_witness :
  exists field,
    beam_sim [1; 3; 0] [0; 1; 2] = Ok field /\ length field = 3%nat /\
    Forall unit_bounded field /\ Exists unit_peak field.
Proof.
  apply (beam_sim_unit_peak [1; 3; 0] [0; 1; 2]).
  - reflexivity.
  - repeat constructor; discriminate.
  - apply Exists_cons_hd. reflexivity.
Defined.

(** C4 as stated fails on amplitude arrays with a negative entry: an
    entry equal to minus the noise floor (after the first
    normalisation) gives a sample of magnitude zero, and an array whose
    largest entry is negative gives magnitudes above 1. *)
Lemma beam_sim_signed_amplitudes :
  (exists field,
     beam_sim [1; - (1 # 1000000)] [0; 0] = Ok field /\
     Exists (fun s => exists q, magnitude s = Fin q /\ q == 0) field) /\
  (exists field,
     beam_sim [-1; -2] [0; 0] = Ok field /\
     Exists (fun s => exists q, magnitude s = Fin q /\ 1 < q) field) /\
  ~ (forall a p : list Q,
       length a = length p -> Exists (fun v => ~ v == 0) a ->
       exists field, beam_sim a p = Ok field /\
         Forall unit_bounded field /\ Exists unit_peak field).
Proof.
  assert (H1 : exists field,
     beam_sim [1; - (1 # 1000000)] [0; 0] = Ok field /\
     Exists (fun s => exists q, magnitude s = Fin q /\ q == 0) field).
  { eexists. split; [vm_compute; reflexivity|].
    apply Exists_cons_tl, Exists_cons_hd. eexists. split; [reflexivity|].
    reflexivity. }
  split; [exact H1|]. split.
  - eexists. split; [vm_compute; reflexivity|].
    apply Exists_cons_tl, Exists_cons_hd. eexists. split; [reflexivity|].
    reflexivity.
  - intro H.
    destruct (H [1; - (1 # 1000000)] [0; 0] eq_refl) as [field [Hf [Hb _]]].
    { apply Exists_cons_hd. discriminate. }
    vm_compute in Hf. injection Hf as <-.
    inversion Hb as [|s1 t1 _ Ht]. subst.
    inversion Ht as [|s2 t2 [q [Hq [Q0 _]]] _]. subst.
    unfold magnitude in Hq. simpl in Hq. injection Hq as <-.
    revert Q0. apply Qle_not_lt. discriminate.
Qed.

End Amplitude.

Section Degenerate.

(** Broadcasting of two one-dimensional arrays fails exactly when the
    lengths differ and neither is one. *)
Lemma broadcast_raise {A B D : Type} (f : A -> B -> D) (u : list A) (v : list B) :
  broadcast f u v = Raise ValueError <->
  length u <> length v /\ length u <> 1%nat /\ length v <> 1%nat.
Proof.
  unfold broadcast. destruct (Nat.eqb (length u) (length v)) eqn:E.
  - apply Nat.eqb_eq in E. split; [discriminate|]. intros [H _]. contradiction.
  - apply Nat.eqb_neq in E.
    destruct u as [|a [|a' u']]; destruct v as [|b [|b' v']];
      simpl in E |- *; try congruence.
    all: split; [try discriminate; intro; repeat split; simpl; lia
                |intros (_ & H1 & H2); try reflexivity;
                 simpl in H1, H2; congruence].
Qed.

(** C8, as the cell behaves: the synthesis raises, with a ValueError,
    exactly when the amplitude array is empty or the two lengths differ
    and neither is one; a nonempty all-zero amplitude array of matching
    length does not fail, the division by the zero maximum makes every
    amplitude of the field NaN. *)
Theorem beam_sim_failure (a p : list Q) :
  (beam_sim a p = Raise ValueError <->
   a = [] \/
   (length a <> length p /\ length a <> 1%nat /\ length p <> 1%nat)) /\
  (a <> [] -> length a = length p -> Forall (fun v => v == 0) a ->
   exists field, beam_sim a p = Ok field /\ length field = length a /\
     Forall (fun s => amp s = NaN) field).
Proof.
  destruct a as [|x t].
  { split; [split; auto|congruence]. }
  set (a := x :: t).
  destruct (max_ok (map Qabs a)) as [m1 [Hm1 [Him1 _]]]; [discriminate|].
  unfold beam_sim. rewrite Hm1. cbn [Np.bind].
  set (a2 := map (fun v => fl_add v (Fin noise))
               (map (fun v => fl_div (Fin v) (Fin m1)) a)).
  assert (F2 : exists m2, Np.fmax a2 = Ok m2) by (simpl; eauto).
  destruct F2 as [m2 Hm2]. rewrite Hm2. cbn [Np.bind].
  assert (L3 : length (map (fun v => fl_div v m2) a2) = length a).
  { unfold a2. now rewrite !length_map. }
  split.
  - rewrite broadcast_raise, L3.
    split; [auto|]. intros [H|H]; [discriminate|exact H].
  - intros _ Hlen Hz. rewrite Forall_forall in Hz.
    assert (Z1 : m1 == 0).
    { apply in_map_iff in Him1. destruct Him1 as [u [<- Hu]].
      rewrite (Hz u Hu). reflexivity. }
    assert (E3 : map (fun v => fl_div v m2) a2 = map (fun _ => NaN) a).
    { unfold a2. rewrite !map_map. apply map_ext_in. intros v Hv.
      unfold fl_div at 2.
      rewrite (Qeq_eq_bool _ _ Z1), (Qeq_eq_bool _ _ (Hz v Hv)). reflexivity. }
    assert (Lp : length (map (fun _ : Q => NaN) a) = length p).
    { now rewrite length_map. }
    rewrite E3. unfold broadcast. rewrite Lp, Nat.eqb_refl.
    eexists. split; [reflexivity|]. split.
    + rewrite length_map, length_combine, Lp, <- Hlen. apply Nat.min_id.
    + apply Forall_forall. intros s Hs.
      assert (Ha : In (amp s) (map (fun _ : Q => NaN) a)).
      { rewrite <- (map_amp_combine _ p Lp). now apply in_map. }
      apply in_map_iff in Ha. destruct Ha as [_ [E _]]. now symmetry.
Qed.

(** The theorem at one ray of zero amplitude. *)
Lemma beam_sim_failure_witness :
  exists field, beam_sim [0] [1] = Ok field /\ length field = 1%nat /\
    Forall (fun s => amp s = NaN) field.
Proof.
  refine (proj2 (beam_sim_failure [0] [1]) _ _ _).
  - discriminate.
  - reflexivity.
  - repeat constructor.
Defined.

(** C8 as stated fails: an all-zero amplitude array is not rejected, and
    neither is a length mismatch when one array has length one. *)
Lemma beam_sim_degenerate_accepted :
  beam_sim [0; 0] [0; 1] = Ok [mkSample NaN 0; mkSample NaN 1] /\
  (exists field, beam_sim [1] [0; 1; 2] = Ok field /\ length field = 3%nat) /\
  ~ (forall a p : list Q,
       length a <> length p \/
       (exists m, Np.max (map Qabs a) = Ok m /\ m == 0) ->
       exists e, beam_sim a p = Raise e).
Proof.
  split; [reflexivity|]. split.
  - eexists. split; [vm_compute; reflexivity|reflexivity].
  - intro H. destruct (H [0; 0] [0; 1]) as [e He].
    + right. exists 0. split; reflexivity.
    + discriminate He.
Qed.

End Degenerate.

(** ** Zero-Padder *)

Section EmbedFacts.

Context {A : Type}.

Lemma length_embed (z : A) (off n : nat) (l : list A) :
  (off + length l <= n)%nat -> length (embed z off n l) = n.
Proof.
  intro H. unfold embed. rewrite !length_app, !repeat_length. lia.
Qed.

Lemma nth_embed_in (z d : A) (off n : nat) (l : list A) (j : nat) :
  (j < length l)%nat -> nth (off + j) (embed z off n l) d = nth j l d.
Proof.
  intro H. unfold embed.
  rewrite app_nth2 by (rewrite repeat_length; lia).
  rewrite repeat_length, app_nth1 by lia. f_equal. lia.
Qed.

Lemma nth_embed_out (z : A) (off n : nat) (l : list A) (k : nat) :
  (k < off \/ off + length l <= k)%nat -> nth k (embed z off n l) z = z.
Proof.
  intro H. unfold embed. destruct H as [H|H].
  - rewrite app_nth1 by (rewrite repeat_length; lia). apply nth_repeat.
  - rewrite app_nth2 by (rewrite repeat_length; lia).
    rewrite repeat_length, app_nth2 by lia. apply nth_repeat.
Qed.

End EmbedFacts.

Section Sums.

Lemma Qsum_app (l l' : list Q) : Qsum (l ++ l') == Qsum l + Qsum l'.
Proof.
  induction l as [|a t IH]; simpl; [ring|]. rewrite IH. ring.
Qed.

Lemma Qsum_zero (l : list Q) : Forall (fun v => v == 0) l -> Qsum l == 0.
Proof.
  induction 1 as [|a t Ha Ht IH]; simpl; [reflexivity|]. rewrite Ha, IH. ring.
Qed.

Lemma Qsum_map_ext {B : Type} (f g : B -> Q) (l : list B) :
  (forall b, In b l -> f b == g b) -> Qsum (map f l) == Qsum (map g l).
Proof.
  induction l as [|b t IH]; simpl; intro H; [reflexivity|].
  rewrite (H b (or_introl eq_refl)), IH; [reflexivity|]. auto.
Qed.

Lemma Qsum_embed (z : Q) (off n : nat) (ms : list Q) :
  z == 0 -> Qsum (embed z off n ms) == Qsum ms.
Proof.
  intro Hz. unfold embed. rewrite !Qsum_app.
  rewrite (Qsum_zero (repeat z off)), (Qsum_zero (repeat z _)).
  - ring.
  - apply Forall_forall. intros v Hv. apply repeat_spec in Hv. now subst.
  - apply Forall_forall. intros v Hv. apply repeat_spec in Hv. now subst.
Qed.

Lemma combine_app_eq {B D : Type} (l1 l2 : list B) (r1 r2 : list D) :
  length l1 = length r1 ->
  combine (l1 ++ l2) (r1 ++ r2) = combine l1 r1 ++ combine l2 r2.
Proof.
  revert r1. induction l1 as [|a t IH]; intros [|b r1] H; simpl in *;
    try discriminate; trivial.
  f_equal. apply IH. congruence.
Qed.

Lemma dot_app (xs xs' ms ms' : list Q) :
  length xs = length ms ->
  dot (xs ++ xs') (ms ++ ms') == dot xs ms + dot xs' ms'.
Proof.
  intro H. unfold dot. now rewrite combine_app_eq, map_app, Qsum_app.
Qed.

(** Samples of zero weight contribute nothing to a moment. *)
Lemma dot_zero (xs : list Q) (z : Q) (k : nat) : z == 0 -> dot xs (repeat z k) == 0.
Proof.
  intro Hz. unfold dot. apply Qsum_zero, Forall_forall.
  intros v Hv. apply in_map_iff in Hv. destruct Hv as [[a b] [<- Hp]].
  apply in_combine_r, repeat_spec in Hp. simpl. subst b. rewrite Hz. ring.
Qed.

Lemma dot_Forall2 (xs xs' ms ms' : list Q) :
  Forall2 Qeq xs xs' -> Forall2 Qeq ms ms' -> dot xs ms == dot xs' ms'.
Proof.
  intros Hx. revert ms ms'.
  induction Hx as [|a b t t' Hab Ht IH]; intros ms ms' Hm.
  - reflexivity.
  - destruct Hm as [|c d u u' Hcd Hu]; [reflexivity|].
    unfold dot in *. simpl. rewrite Hab, Hcd, (IH u u' Hu). reflexivity.
Qed.

Lemma Forall2_Qeq_refl (l : list Q) : Forall2 Qeq l l.
Proof. induction l; constructor; trivial. reflexivity. Qed.

(** Coordinates [g (s + j)] against the coordinates of [xs]. *)
Lemma Forall2_seq (g : nat -> Q) (xs : list Q) (s : nat) :
  (forall j, (j < length xs)%nat -> g (s + j)%nat == nth j xs 0) ->
  Forall2 Qeq (map g (seq s (length xs))) xs.
Proof.
  revert s. induction xs as [|a t IH]; intros s H; simpl; constructor.
  - rewrite <- (Nat.add_0_r s) at 1. apply (H 0%nat). simpl. lia.
  - apply IH. intros j Hj. replace (S s + j)%nat with (s + S j)%nat by lia.
    apply (H (S j)). simpl. lia.
Qed.

(** A moment over the padded axis is the moment over the input axis,
    provided the padded axis carries the input coordinates on the
    embedded block. *)
Lemma dot_embed (g : nat -> Q) (xs ms : list Q) (z : Q) (off n : nat) :
  z == 0 -> length xs = length ms -> (off + length ms <= n)%nat ->
  (forall j, (j < length xs)%nat -> g (off + j)%nat == nth j xs 0) ->
  dot (map g (seq 0 n)) (embed z off n ms) == dot xs ms.
Proof.
  intros Hz Hlen Hn Hg. unfold embed.
  replace n with (off + (length ms + (n - off - length ms)))%nat at 1 by lia.
  rewrite !seq_app, !map_app. simpl.
  rewrite dot_app by now rewrite length_map, length_seq, repeat_length.
  rewrite dot_app by now rewrite length_map, length_seq.
  rewrite !dot_zero by trivial.
  rewrite (dot_Forall2 _ xs ms ms).
  - ring.
  - rewrite <- Hlen. now apply Forall2_seq.
  - apply Forall2_Qeq_refl.
Qed.

End Sums.

Section ZeroPadder.

Lemma map_embed {A B : Type} (f : A -> B) (z : A) (off n : nat) (l : list A) :
  map f (embed z off n l) = embed (f z) off n (map f l).
Proof.
  unfold embed. now rewrite !map_app, !map_repeat, length_map.
Qed.

Lemma Qnat_add (i j : nat) : Qnat (i + j) == Qnat i + Qnat j.
Proof.
  unfold Qnat. now rewrite Nat2Z.inj_add, inject_Z_plus.
Qed.

Lemma Qnat_S (i : nat) : Qnat (S i) == Qnat i + 1.
Proof.
  rewrite <- Nat.add_1_r, Qnat_add. reflexivity.
Qed.

Lemma nth_extend_axis (x : list Q) (off n k : nat) :
  (k < n)%nat ->
  nth k (extend_axis x off n) 0 = hd 0 x + (Qnat k - Qnat off) * spacing x.
Proof.
  intro H. unfold extend_axis.
  rewrite (nth_map_lt _ (seq 0 n) k 0%nat 0) by now rewrite length_seq.
  now rewrite seq_nth.
Qed.

(** The padded axis carries the input coordinates on the block. *)
Lemma extend_axis_block (x : list Q) (off : nat) (j : nat) :
  uniform x -> (j < length x)%nat ->
  hd 0 x + (Qnat (off + j) - Qnat off) * spacing x == nth j x 0.
Proof.
  intros U Hj. rewrite (U j Hj), Qnat_add. ring.
Qed.

Lemma Forall2_map_Qeq {B : Type} (f g : B -> Q) (l : list B) :
  (forall b, In b l -> f b == g b) -> Forall2 Qeq (map f l) (map g l).
Proof.
  induction l as [|b t IH]; simpl; intro H; constructor; auto.
Qed.

(** C7: a target pixel count smaller than a dimension of the input grid
    is rejected with [UndersizedPadding], and only such a count is. *)
Theorem zero_pad_undersized (x y : list Q) (beam : list (list C)) (n : nat) :
  zero_pad x y beam n = inl UndersizedPadding <->
  (n < length x \/ n < length y)%nat.
Proof.
  unfold zero_pad.
  destruct (n <? length x)%nat eqn:Ex; destruct (n <? length y)%nat eqn:Ey; simpl.
  1-3: split; trivial; intros _.
  - left. now apply Nat.ltb_lt.
  - left. now apply Nat.ltb_lt.
  - right. now apply Nat.ltb_lt.
  - split; [discriminate|].
    apply Nat.ltb_ge in Ex, Ey. lia.
Qed.

(** The theorem at a grid of three columns and a target of two pixels. *)
Lemma zero_pad_undersized_witness :
  zero_pad [0; 1; 2] [0; 1] [[C0; C0; C0]; [C0; C0; C0]] 2 = inl UndersizedPadding.
Proof.
  apply (proj2 (zero_pad_undersized [0; 1; 2] [0; 1] [[C0; C0; C0]; [C0; C0; C0]] 2)).
  left. simpl. lia.
Defined.

Variable w : C -> Q.
Hypothesis w_zero : w C0 == 0.

Lemma row_mass_zero (n : nat) : row_mass w (repeat C0 n) == 0.
Proof.
  unfold row_mass. rewrite map_repeat. apply Qsum_zero, Forall_forall.
  intros v Hv. apply repeat_spec in Hv. now subst.
Qed.

Lemma row_mass_embed (off n : nat) (r : list C) :
  row_mass w (embed C0 off n r) == row_mass w r.
Proof.
  unfold row_mass. rewrite map_embed. now apply Qsum_embed.
Qed.

Lemma mass_pad (beam : list (list C)) (ox oy n : nat) :
  mass w (embed (repeat C0 n) oy n (map (embed C0 ox n) beam)) == mass w beam.
Proof.
  unfold mass. rewrite map_embed, Qsum_embed by apply row_mass_zero.
  rewrite map_map. apply Qsum_map_ext. intros r _. apply row_mass_embed.
Qed.

Lemma moment_x_pad (x : list Q) (beam : list (list C)) (ox oy n : nat) :
  uniform x -> Forall (fun r => length r = length x) beam ->
  (ox + length x <= n)%nat ->
  moment_x w (extend_axis x ox n)
    (embed (repeat C0 n) oy n (map (embed C0 ox n) beam)) ==
  moment_x w x beam.
Proof.
  intros U Hs Hn. unfold moment_x. rewrite map_embed, Qsum_embed.
  - rewrite map_map. apply Qsum_map_ext. intros r Hr.
    rewrite Forall_forall in Hs. specialize (Hs r Hr).
    rewrite map_embed. unfold extend_axis. apply dot_embed; trivial.
    + now rewrite length_map.
    + rewrite length_map. lia.
    + intros j Hj. now apply extend_axis_block.
  - rewrite map_repeat. now apply dot_zero.
Qed.

Lemma moment_y_pad (y : list Q) (beam : list (list C)) (ox oy n : nat) :
  uniform y -> length beam = length y -> (oy + length y <= n)%nat ->
  moment_y w (extend_axis y oy n)
    (embed (repeat C0 n) oy n (map (embed C0 ox n) beam)) ==
  moment_y w y beam.
Proof.
  intros U Hl Hn. unfold moment_y. rewrite map_embed. unfold extend_axis.
  rewrite dot_embed.
  - apply dot_Forall2; [apply Forall2_Qeq_refl|].
    rewrite map_map. apply Forall2_map_Qeq. intros r _. apply row_mass_embed.
  - apply row_mass_zero.
  - now rewrite !length_map.
  - rewrite !length_map. lia.
  - intros j Hj. now apply extend_axis_block.
Qed.

End ZeroPadder.

Section Centered.

(** C6: for a field on a uniform grid and a target pixel count [n] at
    least as large as both dimensions, the padded field is [n] by [n]
    with axes of length [n]; the input sits in the centered sub-block
    (the margins on either side differ by at most one pixel) with its
    values unchanged; every other pixel is zero; the new axes have the
    spacing of the input axes and carry the input coordinates on the
    block; and the center of mass of the data, for any weight that
    gives zero no weight, is at the same coordinates before and after. *)
Theorem zero_pad_centered (w : C -> Q) (x y : list Q) (beam : list (list C))
    (n : nat) :
  w C0 == 0 ->
  Np.shape (length y) (length x) beam -> uniform x -> uniform y ->
  (length x <= n)%nat -> (length y <= n)%nat ->
  let ox := ((n - length x) / 2)%nat in
  let oy := ((n - length y) / 2)%nat in
  exists pd,
    zero_pad x y beam n = inr pd /\
    length (x_new pd) = n /\ length (y_new pd) = n /\
    Np.shape n n (beam_new pd) /\
    (ox <= n - length x - ox <= ox + 1)%nat /\
    (oy <= n - length y - oy <= oy + 1)%nat /\
    (forall i j, (i < length y)%nat -> (j < length x)%nat ->
       nth (ox + j) (nth (oy + i) (beam_new pd) []) C0 =
       nth j (nth i beam []) C0) /\
    (forall i j, (i < n)%nat -> (j < n)%nat ->
       (i < oy \/ oy + length y <= i \/ j < ox \/ ox + length x <= j)%nat ->
       nth j (nth i (beam_new pd) []) C0 = C0) /\
    (forall j, (j < length x)%nat -> nth (ox + j) (x_new pd) 0 == nth j x 0) /\
    (forall i, (i < length y)%nat -> nth (oy + i) (y_new pd) 0 == nth i y 0) /\
    (forall k, (S k < n)%nat ->
       nth (S k) (x_new pd) 0 - nth k (x_new pd) 0 == spacing x) /\
    (forall k, (S k < n)%nat ->
       nth (S k) (y_new pd) 0 - nth k (y_new pd) 0 == spacing y) /\
    fst (center_of_mass w (x_new pd) (y_new pd) (beam_new pd)) ==
      fst (center_of_mass w x y beam) /\
    snd (center_of_mass w (x_new pd) (y_new pd) (beam_new pd)) ==
      snd (center_of_mass w x y beam).
Proof.
  intros Hw [Hrows Hcols] Ux Uy Hx Hy ox oy.
  assert (Ox : (ox + length x <= n)%nat).
  { unfold ox. pose proof (Nat.div_mod_eq (n - length x) 2). lia. }
  assert (Oy : (oy + length y <= n)%nat).
  { unfold oy. pose proof (Nat.div_mod_eq (n - length y) 2). lia. }
  assert (Lrow : forall r, In r beam -> length r = length x).
  { rewrite Forall_forall in Hcols. exact Hcols. }
  assert (Lb : length (embed (repeat C0 n) oy n (map (embed C0 ox n) beam)) = n).
  { apply length_embed. rewrite length_map. lia. }
  assert (Block : forall i, (i < length y)%nat ->
            nth (oy + i) (embed (repeat C0 n) oy n (map (embed C0 ox n) beam)) [] =
            embed C0 ox n (nth i beam []) /\ In (nth i beam []) beam).
  { intros i Hi. split.
    - rewrite nth_embed_in by (rewrite length_map; lia).
      apply nth_map_lt. lia.
    - apply nth_In. lia. }
  unfold zero_pad.
  replace (n <? length x)%nat with false by (symmetry; apply Nat.ltb_ge; lia).
  replace (n <? length y)%nat with false by (symmetry; apply Nat.ltb_ge; lia).
  cbn [orb]. fold ox oy. eexists. split; [reflexivity|].
  cbn [x_new y_new beam_new].
  split; [unfold extend_axis; now rewrite length_map, length_seq|].
  split; [unfold extend_axis; now rewrite length_map, length_seq|].
  split.
  { split; [exact Lb|]. apply Forall_forall. intros r Hr.
    unfold embed at 1 in Hr. rewrite !in_app_iff in Hr.
    destruct Hr as [Hr|[Hr|Hr]].
    - apply repeat_spec in Hr. subst. apply repeat_length.
    - apply in_map_iff in Hr. destruct Hr as [r0 [<- Hr0]].
      apply length_embed. rewrite (Lrow r0 Hr0). exact Ox.
    - apply repeat_spec in Hr. subst. apply repeat_length. }
  split.
  { unfold ox. pose proof (Nat.div_mod_eq (n - length x) 2).
    pose proof (Nat.mod_upper_bound (n - length x) 2 ltac:(lia)). lia. }
  split.
  { unfold oy. pose proof (Nat.div_mod_eq (n - length y) 2).
    pose proof (Nat.mod_upper_bound (n - length y) 2 ltac:(lia)). lia. }
  split.
  { intros i j Hi Hj. destruct (Block i Hi) as [-> Hin].
    apply nth_embed_in. now rewrite (Lrow _ Hin). }
  split.
  { intros i j Hi Hj Hout.
    destruct (Nat.lt_ge_cases i oy) as [L|G];
      [|destruct (Nat.lt_ge_cases i (oy + length y)) as [L'|G']].
    - rewrite (nth_indep _ [] (repeat C0 n)) by lia.
      rewrite nth_embed_out by lia. apply nth_repeat.
    - replace i with (oy + (i - oy))%nat by lia.
      destruct (Block (i - oy)%nat ltac:(lia)) as [-> Hin].
      apply nth_embed_out. rewrite (Lrow _ Hin). lia.
    - rewrite (nth_indep _ [] (repeat C0 n)) by lia.
      rewrite nth_embed_out by (rewrite length_map; lia). apply nth_repeat. }
  split.
  { intros j Hj. rewrite nth_extend_axis by lia. now apply extend_axis_block. }
  split.
  { intros i Hi. rewrite nth_extend_axis by lia. now apply extend_axis_block. }
  split.
  { intros k Hk. rewrite !nth_extend_axis by lia. rewrite Qnat_S. ring. }
  split.
  { intros k Hk. rewrite !nth_extend_axis by lia. rewrite Qnat_S. ring. }
  unfold center_of_mass. cbn [fst snd].
  rewrite (mass_pad w Hw), (moment_x_pad w Hw), (moment_y_pad w Hw);
    trivial; try lia.
  split; reflexivity.
Qed.

End Centered.

(** The theorem at a three by two field padded to five pixels, weighted
    by the squared modulus. *)
Lemma zero_pad_centered_witness :
  let x := [0; 1] in
  let y := [0; 1; 2] in
  let beam := [[(1, 0); (2, 0)]; [(3, 0); (0, 4)]; [(5, 0); (6, 0)]] in
  exists pd,
    zero_pad x y beam 5 = inr pd /\
    Np.shape 5 5 (beam_new pd) /\
    fst (center_of_mass normsq (x_new pd) (y_new pd) (beam_new pd)) ==
      fst (center_of_mass normsq x y beam) /\
    snd (center_of_mass normsq (x_new pd) (y_new pd) (beam_new pd)) ==
      snd (center_of_mass normsq x y beam).
Proof.
  intros x y beam.
  destruct (zero_pad_centered normsq x y beam 5) as [pd H].
  - reflexivity.
  - split; [reflexivity|repeat constructor].
  - intros j Hj. destruct j as [|[|j]]; [reflexivity|reflexivity|simpl in Hj; lia].
  - intros j Hj.
    destruct j as [|[|[|j]]]; [reflexivity|reflexivity|reflexivity|simpl in Hj; lia].
  - simpl. lia.
  - simpl. lia.
  - exists pd.
    destruct H as (H1 & _ & _ & H4 & _ & _ & _ & _ & _ & _ & _ & _ & H13 & H14).
    exact (conj H1 (conj H4 (conj H13 H14))).
Defined.

(** ** Coordinate Mapper *)

Section CoordinateMapper.

Lemma nth_freq_axis (n : nat) (d : Q) (i : nat) :
  (i < n)%nat ->
  nth i (freq_axis n d) 0 = (Qnat i - Qnat (n / 2)) / (Qnat n * d).
Proof.
  intro H. unfold freq_axis.
  rewrite (nth_map_lt _ (seq 0 n) i 0%nat 0) by now rewrite length_seq.
  now rewrite seq_nth.
Qed.

Lemma freq_axis_angular (wavelength : Q) (g : list Q) :
  angular_axis wavelength g
    (map (fun f => f * wavelength) (freq_axis (length g) (spacing g))).
Proof.
  set (a := map (fun f => f * wavelength) (freq_axis (length g) (spacing g))).
  assert (La : length (freq_axis (length g) (spacing g)) = length g).
  { unfold freq_axis. now rewrite length_map, length_seq. }
  assert (N : forall i, (i < length g)%nat ->
            nth i a 0 =
            (Qnat i - Qnat (length g / 2)) / (Qnat (length g) * spacing g)
            * wavelength).
  { intros i Hi. unfold a.
    rewrite (nth_map_lt _ _ i 0 0) by lia. now rewrite nth_freq_axis. }
  split; [unfold a; now rewrite length_map|]. split; [|split].
  - intros i Hi. now rewrite N.
  - intros i Hi. rewrite !N by lia. rewrite Qnat_S. unfold Qdiv. ring.
  - intro Hpos.
    assert (Hh : (length g / 2 < length g)%nat) by (apply Nat.div_lt; lia).
    rewrite N by exact Hh. unfold Qdiv. ring.
Qed.

(** C2: the angular axes of a padded grid are its frequency axes times
    the wavelength: entry [i] of an axis of [N] samples at spacing [D]
    is [(i - N/2) / (N D)] times the wavelength, so the integers [k] run
    from [-N/2] upwards through zero, which sits at index [N/2], in
    equal steps; and the conversion to arcminutes that the notebook
    applies to these axes, [v * 60 * 180 / pi], is the multiplication by
    [(180 / pi) * 60]. *)
Theorem coords_spat_to_ang_axes (x y : list Q) (wavelength : Q) :
  angular_axis wavelength x (fst (coords_spat_to_ang x y wavelength)) /\
  angular_axis wavelength y (snd (coords_spat_to_ang x y wavelength)) /\
  forall v, arcmin v == v * (180 / Np.pi) * 60 /\ arcmin v == rad_to_arcmin v.
Proof.
  unfold coords_spat_to_ang. cbn [fst snd].
  split; [apply freq_axis_angular|]. split; [apply freq_axis_angular|].
  intro v. split; [|apply arcmin_rad].
  rewrite arcmin_rad. reflexivity.
Qed.

(** The theorem at an axis of four samples, spacing 1, wavelength 1/2. *)
Lemma coords_spat_to_ang_axes_witness :
  nth 2 (fst (coords_spat_to_ang [0; 1; 2; 3] [0; 1; 2] (1 # 2))) 0 == 0.
Proof.
  destruct (coords_spat_to_ang_axes [0; 1; 2; 3] [0; 1; 2] (1 # 2))
    as [(_ & _ & _ & H) _].
  apply H. simpl. lia.
Defined.

End CoordinateMapper.

(** * Further properties of the notebook *)

(** ** The intensity map of the last cell *)

Section Intensity.

Lemma Forall2_map_same {A B D : Type} (R : B -> D -> Prop) (f : A -> B)
    (g : A -> D) (l : list A) :
  (forall a, In a l -> R (f a) (g a)) -> Forall2 R (map f l) (map g l).
Proof.
  induction l as [|a t IH]; simpl; intro H; constructor; auto.
Qed.

Lemma nonzero_square (v : Q) : ~ v == 0 -> 0 < v * v.
Proof.
  intro H. assert (C : v < 0 \/ 0 < v).
  { destruct (Q_dec v 0) as [[L|G]|E]; auto. contradiction. }
  nra.
Qed.

Lemma exists_in_concat {A : Type} (P : A -> Prop) (m : list (list A)) :
  Exists (Exists P) m -> exists r v, In r m /\ In v r /\ P v.
Proof.
  intro H. apply Exists_exists in H. destruct H as [r [Hr H]].
  apply Exists_exists in H. destruct H as [v [Hv Pv]]. eauto.
Qed.

(** The maximum of the squared moduli of a map that is not identically
    zero: it exists, is positive, is the square of a modulus, and bounds
    every square. *)
Lemma max_square (m : list (list Q)) :
  Exists (Exists (fun v => ~ v == 0)) m ->
  exists mx, Np.max (concat (map (map (fun v => v * v)) m)) = Ok mx /\
    0 < mx /\ (exists u, In u (concat m) /\ mx = u * u) /\
    forall r v, In r m -> In v r -> 0 <= v * v <= mx.
Proof.
  intro Hex. destruct (exists_in_concat _ _ Hex) as (r0 & v0 & Hr0 & Hv0 & N0).
  assert (C : concat (map (map (fun v => v * v)) m) =
              map (fun v => v * v) (concat m)) by (symmetry; apply concat_map).
  assert (I0 : In v0 (concat m)) by (apply in_concat; eauto).
  destruct (max_ok (concat (map (map (fun v => v * v)) m))) as [mx [Hmx [Hin Hge]]].
  { rewrite C. destruct (concat m); [destruct I0|discriminate]. }
  rewrite C in Hin, Hge. exists mx. split; [exact Hmx|].
  assert (B : forall r v, In r m -> In v r -> 0 <= v * v <= mx).
  { intros r v Hr Hv. split; [nra|].
    apply Hge. apply (in_map (fun q => q * q)). apply in_concat. eauto. }
  split.
  { apply Qlt_le_trans with (v0 * v0); [now apply nonzero_square|].
    now apply (B r0 v0). }
  split; [|exact B].
  apply in_map_iff in Hin. destruct Hin as [u [Eu Hu]]. eauto.
Qed.

(** X1: the map [a] of the last cell, computed from a transform that is
    not identically zero, holds finite values between 0 and 1 and its
    largest magnitude is exactly 1: it is an intensity map in the sense
    of the extractor's contract, and the extractor's own division by
    [np.max(abs(a))] divides by one. *)
Theorem intensity_normalised (r c : nat) (m : list (list Q)) :
  Np.shape r c m ->
  Exists (Exists (fun v => ~ v == 0)) m ->
  exists a,
    intensity m = Ok (map (map Fin) a) /\
    intensity_map r c a /\
    Forall (Forall (fun v => v <= 1)) a /\
    exists pk, Np.max (concat (map (map Qabs) a)) = Ok pk /\ pk == 1.
Proof.
  intros Sm Hex.
  destruct (max_square m Hex) as (mx & Hmx & Pmx & (u & Hu & Eu) & B).
  destruct (exists_in_concat _ _ Hex) as (r0 & v0 & Hr0 & Hv0 & N0).
  set (f := fun v : Q => v * v / mx).
  assert (Bf : forall r v, In r m -> In v r -> 0 <= f v <= 1).
  { intros r' v Hr Hv. destruct (B r' v Hr Hv). unfold f. split.
    - apply Qle_shift_div_l; lra.
    - apply Qle_shift_div_r; lra. }
  exists (map (map f) m). split; [|split; [|split]].
  - unfold intensity. cbv zeta. rewrite Hmx. cbn [Np.bind]. f_equal.
    rewrite !map_map. apply map_ext. intro r'.
    rewrite !map_map. apply map_ext. intro v.
    apply fl_div_fin. lra.
  - split; [now apply shape_map|].
    destruct Sm as [Lm Hc]. rewrite Forall_forall in Hc.
    split; [rewrite <- Lm; destruct m; [destruct Hr0|simpl; lia]|].
    split; [rewrite <- (Hc r0 Hr0); destruct r0; [destruct Hv0|simpl; lia]|].
    split.
    + apply Forall_map, Forall_forall. intros r' Hr.
      apply Forall_map, Forall_forall. intros v Hv. apply (Bf r' v Hr Hv).
    + apply Exists_exists. exists (map f r0). split; [now apply in_map|].
      apply Exists_exists. exists (f v0). split; [now apply in_map|].
      unfold f. apply Qlt_shift_div_l; [lra|].
      pose proof (nonzero_square v0 N0). lra.
  - apply Forall_map, Forall_forall. intros r' Hr.
    apply Forall_map, Forall_forall. intros v Hv. apply (Bf r' v Hr Hv).
  - apply in_concat in Hu. destruct Hu as [ru [Hru Huu]].
    assert (C : concat (map (map Qabs) (map (map f) m)) =
                map (fun v => Qabs (f v)) (concat m)).
    { rewrite map_map, concat_map.
      f_equal. apply map_ext. intro r'. now rewrite map_map. }
    destruct (max_ok (concat (map (map Qabs) (map (map f) m)))) as [pk [Hpk [Hin Hge]]].
    { rewrite C. assert (Iu : In u (concat m)) by (apply in_concat; eauto).
      destruct (concat m); [destruct Iu|discriminate]. }
    exists pk. split; [exact Hpk|]. rewrite C in Hin, Hge.
    apply Qle_antisym.
    + apply in_map_iff in Hin. destruct Hin as [v [<- Hv]].
      apply in_concat in Hv. destruct Hv as [rv [Hrv Hvv]].
      destruct (Bf rv v Hrv Hvv). rewrite Qabs_pos; lra.
    + assert (E1 : Qabs (f u) == 1).
      { unfold f. rewrite <- Eu.
        assert (E : mx / mx == 1) by (field; lra).
        rewrite E. reflexivity. }
      rewrite <- E1. apply Hge.
      apply (in_map (fun v => Qabs (f v))), in_concat. eauto.
Qed.

(** The theorem at a two by two map of moduli. *)
Lemma intensity_normalised_witness :
  exists a,
    intensity [[1; 2]; [0; 1]] = Ok (map (map Fin) a) /\
    intensity_map 2 2 a /\
    Forall (Forall (fun v => v <= 1)) a /\
    exists pk, Np.max (concat (map (map Qabs) a)) = Ok pk /\ pk == 1.
Proof.
  apply (intensity_normalised 2 2 [[1; 2]; [0; 1]]).
  - split; [reflexivity|repeat constructor].
  - apply Exists_cons_hd, Exists_cons_hd. discriminate.
Defined.

(** X2: the degenerate transforms.  Without any pixel the normalisation
    raises ValueError; with pixels that are all zero it raises nothing:
    every entry of [a] is 0/0, that is NaN. *)
Theorem intensity_degenerate (m : list (list Q)) :
  (concat m = [] -> intensity m = Raise ValueError) /\
  (concat m <> [] -> Forall (Forall (fun v => v == 0)) m ->
   intensity m = Ok (map (map (fun _ => NaN)) m)).
Proof.
  assert (C : concat (map (map (fun v => v * v)) m) =
              map (fun v => v * v) (concat m)) by (symmetry; apply concat_map).
  unfold intensity. cbv zeta. rewrite C. split.
  - intros ->. reflexivity.
  - intros Hne Hz.
    assert (Z : forall r v, In r m -> In v r -> v == 0).
    { intros r v Hr Hv. rewrite Forall_forall in Hz.
      specialize (Hz r Hr). rewrite Forall_forall in Hz. now apply Hz. }
    destruct (max_ok (map (fun v => v * v) (concat m))) as [mx [Hmx [Hin _]]].
    { destruct (concat m); [congruence|discriminate]. }
    rewrite Hmx. cbn [Np.bind]. f_equal.
    assert (Z0 : mx == 0).
    { apply in_map_iff in Hin. destruct Hin as [u [<- Hu]].
      apply in_concat in Hu. destruct Hu as [r [Hr Hu]].
      rewrite (Z r u Hr Hu). reflexivity. }
    rewrite map_map. apply map_ext_in. intros r Hr.
    rewrite map_map. apply map_ext_in. intros v Hv.
    unfold fl_div. rewrite (Qeq_eq_bool _ _ Z0).
    assert (Zv : v * v == 0) by (rewrite (Z r v Hr Hv); reflexivity).
    now rewrite (Qeq_eq_bool _ _ Zv).
Qed.

(** The theorem at a two by two map of zeros. *)
Lemma intensity_degenerate_witness :
  intensity [[0; 0]; [0; 0]] = Ok [[NaN; NaN]; [NaN; NaN]].
Proof.
  refine (proj2 (intensity_degenerate [[0; 0]; [0; 0]]) _ _).
  - discriminate.
  - repeat constructor.
Defined.

(** X3: for the moduli of a transform that is not identically zero, the
    map [a] is, pixel by pixel, the square of the normalised magnitude
    whose logarithm the far-field plot shows, and that magnitude lies
    between 0 and 1. *)
Theorem intensity_squares_norm_mag (m : list (list Q)) :
  Forall (Forall (fun v => 0 <= v)) m ->
  Exists (Exists (fun v => 0 < v)) m ->
  exists n a,
    norm_mag m = Ok (map (map Fin) n) /\
    intensity m = Ok (map (map Fin) a) /\
    Forall2 (Forall2 (fun av nv => av == nv * nv)) a n /\
    Forall (Forall (fun v => 0 <= v <= 1)) n.
Proof.
  intros Hnn Hex.
  assert (Nn : forall r v, In r m -> In v r -> 0 <= v).
  { intros r v Hr Hv. rewrite Forall_forall in Hnn.
    specialize (Hnn r Hr). rewrite Forall_forall in Hnn. now apply Hnn. }
  destruct (exists_in_concat _ _ Hex) as (r0 & v0 & Hr0 & Hv0 & P0).
  assert (Hex' : Exists (Exists (fun v => ~ v == 0)) m).
  { apply Exists_exists. exists r0. split; trivial.
    apply Exists_exists. exists v0. split; trivial. lra. }
  destruct (max_square m Hex') as (mx & Hmx & Pmx & (u & Hu & Eu) & B).
  assert (I0 : In v0 (concat m)) by (apply in_concat; eauto).
  destruct (max_ok (concat m)) as [M [HM [HinM HgeM]]].
  { destruct (concat m); [destruct I0|discriminate]. }
  assert (PM : 0 < M) by (apply Qlt_le_trans with v0; auto).
  assert (BM : forall r v, In r m -> In v r -> 0 <= v <= M).
  { intros r v Hr Hv. split; [eapply Nn; eauto|].
    apply HgeM, in_concat. eauto. }
  assert (Emx : mx == M * M).
  { apply Qle_antisym.
    - apply in_concat in Hu. destruct Hu as [ru [Hru Huu]].
      destruct (BM ru u Hru Huu). subst mx. nra.
    - apply in_concat in HinM. destruct HinM as [rM [HrM HMM]].
      apply (B rM M HrM HMM). }
  exists (map (map (fun v => v / M)) m), (map (map (fun v => v * v / mx)) m).
  split; [|split; [|split]].
  - unfold norm_mag. rewrite HM. cbn [Np.bind]. f_equal.
    rewrite !map_map. apply map_ext. intro r.
    rewrite !map_map. apply map_ext. intro v. apply fl_div_fin. lra.
  - unfold intensity. cbv zeta. rewrite Hmx. cbn [Np.bind]. f_equal.
    rewrite !map_map. apply map_ext. intro r.
    rewrite !map_map. apply map_ext. intro v. apply fl_div_fin. lra.
  - apply Forall2_map_same. intros r _.
    apply Forall2_map_same. intros v _. rewrite Emx. field. lra.
  - apply Forall_map, Forall_forall. intros r Hr.
    apply Forall_map, Forall_forall. intros v Hv.
    destruct (BM r v Hr Hv). split.
    + apply Qle_shift_div_l; lra.
    + apply Qle_shift_div_r; lra.
Qed.

(** The theorem at a two by two map of moduli. *)
Lemma intensity_squares_norm_mag_witness :
  exists n a,
    norm_mag [[1; 2]; [0; 1]] = Ok (map (map Fin) n) /\
    intensity [[1; 2]; [0; 1]] = Ok (map (map Fin) a) /\
    Forall2 (Forall2 (fun av nv => av == nv * nv)) a n /\
    Forall (Forall (fun v => 0 <= v <= 1)) n.
Proof.
  apply (intensity_squares_norm_mag [[1; 2]; [0; 1]]).
  - repeat constructor; discriminate.
  - apply Exists_cons_hd, Exists_cons_hd. reflexivity.
Defined.

End Intensity.

(** ** The Beam-Width Extractor on arbitrary maps *)

Section ExtractorOutcome.

Lemma Qabs_idem (v : Q) : Qabs (Qabs v) = Qabs v.
Proof.
  destruct v as [n d]. unfold Qabs. f_equal. apply Z.abs_idemp.
Qed.

Lemma abs_abs_map (a : list (list Q)) :
  map (map Qabs) (map (map Qabs) a) = map (map Qabs) a.
Proof.
  rewrite map_map. apply map_ext. intro r.
  rewrite map_map. apply map_ext. apply Qabs_idem.
Qed.

Lemma fwhm1_abs (a y_out : list (list Q)) :
  fwhm1 (map (map Qabs) a) y_out = fwhm1 a y_out.
Proof.
  unfold fwhm1, indx. now rewrite abs_abs_map.
Qed.

Lemma fwhm2_abs (a x_out : list (list Q)) :
  fwhm2 (map (map Qabs) a) x_out = fwhm2 a x_out.
Proof.
  unfold fwhm2, indx. now rewrite abs_abs_map.
Qed.

(** On an intensity map with axes of its shape both cuts have a width. *)
Lemma fwhm_cuts_defined (r c : nat) (a x_ang y_ang : list (list Q)) :
  intensity_map r c a -> Np.shape r c x_ang -> Np.shape r c y_ang ->
  exists w1 w2, fwhm1 a x_ang = Ok w1 /\ fwhm2 a y_ang = Ok w2.
Proof.
  intros Ia Sx Sy.
  destruct (intensity_peak r c a Ia) as (mx & pk & Hmx & Pmx & Le & _ & _).
  destruct Ia as (Sa & Hr & Hc & _ & _).
  destruct (indx_first a mx Hmx) as (ix & i & j & Hix & Hi & Hj & Fi & Fj).
  destruct (find_index_some _ _ _ Fi) as [[ri [Hri _]] _].
  pose proof (nth_error_nth _ _ [] Hri) as Nri. rewrite Nri in Fj.
  destruct (find_index_some _ _ _ Fj) as [[v0 [Hv0 Ev0]] _].
  unfold at_peak in Ev0. apply Qeq_bool_eq in Ev0.
  assert (Iri : In ri a) by (eapply nth_error_In; eauto).
  assert (Iv0 : In v0 ri) by (eapply nth_error_In; eauto).
  rewrite (Qabs_pos v0) in Ev0 by (apply (Le ri v0 Iri Iv0)).
  assert (Li : (i < r)%nat).
  { destruct Sa as [<- _]. apply nth_error_Some. congruence. }
  assert (Lj : (j < c)%nat).
  { rewrite <- (shape_in r c a ri Sa Iri). apply nth_error_Some. congruence. }
  destruct (shape_row r c x_ang i Sx Li) as [rang [Hrang Lrang]].
  destruct (cut_agree rang ri mx) as (w1 & _ & H1 & _); trivial.
  { rewrite Lrang. symmetry. apply (shape_in r c a ri Sa Iri). }
  { apply Forall_forall. intros v Hv. apply (Le ri v Iri Hv). }
  { exists v0. auto. }
  { intros v Hv. apply (Le ri v Iri Hv). }
  pose proof (column_shape 0 r c y_ang j Sy Lj) as Hcang.
  set (ccut := map (fun w => nth j w 0) a).
  set (cang := map (fun w => nth j w 0) y_ang) in *.
  assert (Icol : forall v, In v ccut -> 0 <= v <= mx).
  { intros v Hv. apply in_map_iff in Hv. destruct Hv as [w [<- Hw]].
    apply (Le w _ Hw). apply nth_In. rewrite (shape_in r c a w Sa Hw). exact Lj. }
  destruct (cut_agree cang ccut mx) as (w2 & _ & H2 & _); trivial.
  { unfold cang, ccut. rewrite !length_map.
    destruct Sa as [-> _]. destruct Sy as [-> _]. reflexivity. }
  { apply Forall_forall. intros v Hv. apply (Icol v Hv). }
  { exists v0. split; trivial. unfold ccut.
    rewrite <- (nth_error_nth _ _ 0 Hv0).
    apply (in_map (fun w => nth j w 0) a ri Iri). }
  { intros v Hv. apply (Icol v Hv). }
  exists w1, w2. split.
  - unfold fwhm1. rewrite Hix. cbn [Np.bind]. rewrite Hi. cbn [Np.bind].
    unfold Np.row, Np.get.
    rewrite Hrang, nth_error_map, Hri, Hmx. cbn [Np.bind Np.of_option option_map].
    exact H1.
  - unfold fwhm2. rewrite Hix. cbn [Np.bind]. rewrite Hj. cbn [Np.bind].
    rewrite !col_column, Hcang, (column_abs r c a j Sa Lj), Hmx.
    cbn [Np.bind Np.of_option]. exact H2.
Qed.

Lemma fwhm1_nonneg (a y_out : list (list Q)) (w : Q) :
  fwhm1 a y_out = Ok w -> 0 <= w.
Proof.
  intro H. destruct (fwhm1_cut a y_out w H) as (i & axis & cut & mx & _ & _ & _ & Hw).
  destruct (half_width_inv _ _ _ Hw) as (l & r & _ & _ & _ & _ & _ & ->).
  apply Qabs_nonneg.
Qed.

Lemma fwhm2_nonneg (a x_out : list (list Q)) (w : Q) :
  fwhm2 a x_out = Ok w -> 0 <= w.
Proof.
  intro H. destruct (fwhm2_cut a x_out w H) as (i & axis & cut & mx & _ & _ & _ & Hw).
  destruct (half_width_inv _ _ _ Hw) as (l & r & _ & _ & _ & _ & _ & ->).
  apply Qabs_nonneg.
Qed.

(** On a map of zeros the row cut finds no sample above one half. *)
Lemma fwhm1_zero_map (a y_out : list (list Q)) :
  concat a <> [] -> Forall (Forall (fun v => v == 0)) a ->
  fwhm1 a y_out = Raise IndexError.
Proof.
  intros Hne Hz.
  assert (Z : forall r v, In r a -> In v r -> v == 0).
  { intros r v Hr Hv. rewrite Forall_forall in Hz.
    specialize (Hz r Hr). rewrite Forall_forall in Hz. now apply Hz. }
  destruct (max_ok (concat (map (map Qabs) a))) as [mx [Hmx [Hin _]]].
  { rewrite concat_abs. destruct (concat a); [congruence|discriminate]. }
  assert (Z0 : mx == 0).
  { rewrite concat_abs in Hin. apply in_map_iff in Hin.
    destruct Hin as [u [<- Hu]]. apply in_concat in Hu.
    destruct Hu as [r [Hr Hu]]. rewrite (Z r u Hr Hu). reflexivity. }
  destruct (indx_first a mx Hmx) as (ix & i & j & Hix & Hi & _ & Fi & _).
  destruct (find_index_some _ _ _ Fi) as [[ri [Hri _]] _].
  assert (Iri : In ri a) by (eapply nth_error_In; eauto).
  unfold fwhm1. rewrite Hix. cbn [Np.bind]. rewrite Hi. cbn [Np.bind].
  unfold Np.row, Np.get.
  destruct (nth_error y_out i) as [axis|]; [|reflexivity].
  rewrite nth_error_map, Hri, Hmx. cbn [Np.bind Np.of_option option_map].
  apply half_width_none. apply find_index_none.
  intros e He. rewrite map_map in He. apply in_map_iff in He.
  destruct He as [v [<- Hv]]. unfold fl_div.
  rewrite (Qeq_eq_bool _ _ Z0).
  assert (Zv : Qabs v == 0) by (rewrite (Z ri v Iri Hv); reflexivity).
  now rewrite (Qeq_eq_bool _ _ Zv).
Qed.

(** The outcomes on a map of finite pixels. *)
Lemma fwhm_outcome_finite (r c : nat) (a x_ang y_ang : list (list Q)) :
  Np.shape r c a -> Np.shape r c x_ang -> Np.shape r c y_ang ->
  (concat a = [] -> fwhm a x_ang y_ang = Raise ValueError) /\
  (concat a <> [] -> Forall (Forall (fun v => v == 0)) a ->
   fwhm a x_ang y_ang = Raise IndexError) /\
  (Exists (Exists (fun v => ~ v == 0)) a ->
   exists w, fwhm a x_ang y_ang = Ok w /\ 0 <= w).
Proof.
  intros Sa Sx Sy. split; [|split].
  - intro E. unfold fwhm, fwhm1, indx. rewrite concat_abs, E. reflexivity.
  - intros Hne Hz. unfold fwhm. now rewrite fwhm1_zero_map.
  - intro Hex.
    destruct (exists_in_concat _ _ Hex) as (r0 & v0 & Hr0 & Hv0 & N0).
    assert (Ia : intensity_map r c (map (map Qabs) a)).
    { split; [now apply shape_map|].
      destruct Sa as [Lm Hc]. rewrite Forall_forall in Hc.
      split; [rewrite <- Lm; destruct a; [destruct Hr0|simpl; lia]|].
      split; [rewrite <- (Hc r0 Hr0); destruct r0; [destruct Hv0|simpl; lia]|].
      split.
      - apply Forall_map, Forall_forall. intros r' _.
        apply Forall_map, Forall_forall. intros v _. apply Qabs_nonneg.
      - apply Exists_exists. exists (map Qabs r0). split; [now apply in_map|].
        apply Exists_exists. exists (Qabs v0). split; [now apply in_map|].
        destruct (Qlt_le_dec 0 (Qabs v0)) as [L|G]; trivial.
        exfalso. apply N0.
        assert (Qabs v0 == 0) by (apply Qle_antisym; [trivial|apply Qabs_nonneg]).
        apply Qabs_Qle_condition in G. lra. }
    destruct (fwhm_cuts_defined r c _ x_ang y_ang Ia Sx Sy) as (w1 & w2 & H1 & H2).
    rewrite fwhm1_abs in H1. rewrite fwhm2_abs in H2.
    exists ((w1 + w2) / 2). split.
    + unfold fwhm. rewrite H1, H2. reflexivity.
    + pose proof (fwhm1_nonneg _ _ _ H1). pose proof (fwhm2_nonneg _ _ _ H2).
      apply Qle_shift_div_l; lra.
Qed.

Lemma Qmax_gtb (x y : Q) : Qmax x y = if Qgtb y x then y else x.
Proof.
  unfold Qmax, GenericMinMax.gmax.
  destruct (Qcompare x y) eqn:C.
  - apply Qeq_alt in C. assert (G : Qgtb y x = false) by (apply Qgtb_false; lra).
    now rewrite G.
  - apply Qlt_alt in C. assert (G : Qgtb y x = true) by (now apply Qgtb_true).
    now rewrite G.
  - apply Qgt_alt in C. assert (G : Qgtb y x = false) by (apply Qgtb_false; lra).
    now rewrite G.
Qed.

Lemma fold_max2_fin (t : list Q) (x : Q) :
  fold_left fl_max2 (map Fin t) (Fin x) = Fin (fold_left Qmax t x).
Proof.
  revert x. induction t as [|y t IH]; intro x; simpl; trivial.
  rewrite Qmax_gtb. destruct (Qgtb y x); apply IH.
Qed.

(** On finite values the two readings of [np.max] agree. *)
Lemma fmax_fin_max (l : list Q) :
  Np.fmax (map Fin l) = (m <- Np.max l ;; Ok (Fin m)).
Proof.
  destruct l as [|x t]; simpl; trivial. now rewrite fold_max2_fin.
Qed.

Lemma abs_fin_map (a : list (list Q)) :
  map (map fl_abs) (map (map Fin) a) = map (map Fin) (map (map Qabs) a).
Proof.
  rewrite !map_map. apply map_ext. intro r. now rewrite !map_map.
Qed.

Lemma concat_fin_map (a : list (list Q)) :
  concat (map (map Fin) a) = map Fin (concat a).
Proof. symmetry. apply concat_map. Qed.

(** On a map of finite pixels the lookup and the two cuts are the ones
    on rationals. *)
Lemma indx_fl_fin (a : list (list Q)) : indx_fl (map (map Fin) a) = indx a.
Proof.
  unfold indx_fl, indx.
  rewrite abs_fin_map, concat_fin_map, fmax_fin_max.
  destruct (Np.max _) as [mx|e]; cbn [Np.bind]; trivial.
  do 2 f_equal. rewrite !map_map. apply map_ext. intro r. now rewrite !map_map.
Qed.

Lemma fwhm1_fl_fin (a y_out : list (list Q)) :
  fwhm1_fl (map (map Fin) a) y_out = fwhm1 a y_out.
Proof.
  unfold fwhm1_fl, fwhm1. rewrite indx_fl_fin.
  destruct (indx a) as [ix|e]; cbn [Np.bind]; trivial.
  destruct (Np.first (fst ix)) as [i|e]; cbn [Np.bind]; trivial.
  destruct (Np.row y_out i) as [r|e]; cbn [Np.bind]; trivial.
  rewrite abs_fin_map, concat_fin_map, fmax_fin_max.
  unfold Np.row, Np.get. rewrite nth_error_map.
  destruct (nth_error _ i) as [c|]; cbn [Np.bind Np.of_option option_map]; trivial.
  destruct (Np.max _) as [mx|e]; cbn [Np.bind]; trivial.
  now rewrite map_map.
Qed.

Lemma fwhm2_fl_fin (a x_out : list (list Q)) :
  fwhm2_fl (map (map Fin) a) x_out = fwhm2 a x_out.
Proof.
  unfold fwhm2_fl, fwhm2. rewrite indx_fl_fin.
  destruct (indx a) as [ix|e]; cbn [Np.bind]; trivial.
  destruct (Np.first (snd ix)) as [j|e]; cbn [Np.bind]; trivial.
  destruct (Np.col x_out j) as [r|e]; cbn [Np.bind]; trivial.
  rewrite abs_fin_map, concat_fin_map, fmax_fin_max.
  rewrite !col_column, column_map.
  destruct (column _ j) as [c|]; cbn [Np.bind Np.of_option option_map]; trivial.
  destruct (Np.max _) as [mx|e]; cbn [Np.bind]; trivial.
  now rewrite map_map.
Qed.

Lemma fwhm_fl_fin (a x_ang y_ang : list (list Q)) :
  fwhm_fl (map (map Fin) a) x_ang y_ang = fwhm a x_ang y_ang.
Proof.
  unfold fwhm_fl, fwhm. now rewrite fwhm1_fl_fin, fwhm2_fl_fin.
Qed.

(** A map of finite pixels is a map of rationals. *)
Lemma finite_row (r : list fl) :
  Forall F64.finite r -> exists r', r = map Fin r'.
Proof.
  induction 1 as [|v t Hv _ [t' ->]]; [now exists []|].
  destruct v as [q| | |]; try destruct Hv. now exists (q :: t').
Qed.

Lemma finite_map (a : list (list fl)) :
  Forall (Forall F64.finite) a -> exists a', a = map (map Fin) a'.
Proof.
  induction 1 as [|r t Hr _ [t' ->]]; [now exists []|].
  destruct (finite_row r Hr) as [r' ->]. now exists (r' :: t').
Qed.

(** The maximum of an array that holds an infinity or a NaN is an
    infinity or a NaN. *)
Lemma fl_max2_special (x y : fl) :
  ~ F64.finite x \/ ~ F64.finite y ->
  x <> NInf -> y <> NInf -> fl_max2 x y = PInf \/ fl_max2 x y = NaN.
Proof.
  destruct x, y; simpl; intros [H|H] Nx Ny; auto; try congruence;
    exfalso; apply H; exact I.
Qed.

Lemma fold_max2_special (t : list fl) (x : fl) :
  Exists (fun v => ~ F64.finite v) (x :: t) ->
  Forall (fun v => v <> NInf) (x :: t) ->
  fold_left fl_max2 t x = PInf \/ fold_left fl_max2 t x = NaN.
Proof.
  revert x. induction t as [|y t IH]; intros x Hx Hn; simpl.
  - inversion Hx as [? ? H|? ? H]; subst; [|inversion H].
    inversion Hn; subst. destruct x; auto; try congruence. exfalso. now apply H.
  - inversion Hn as [|? ? Nx Hn']; subst. inversion Hn' as [|? ? Ny Ht]; subst.
    assert (Nm : fl_max2 x y <> NInf).
    { destruct x, y; simpl; try congruence. destruct (Qgtb _ _); congruence. }
    apply IH; [|now constructor].
    inversion Hx as [? ? H|? ? H]; subst.
    + left. destruct (fl_max2_special x y (or_introl H) Nx Ny) as [-> | ->];
        intros [].
    + inversion H as [? ? H'|? ? H']; subst.
      * left. destruct (fl_max2_special x y (or_intror H') Nx Ny) as [-> | ->];
          intros [].
      * now right.
Qed.

Lemma abs_not_ninf (v : fl) : fl_abs v <> NInf.
Proof. destruct v; discriminate. Qed.

Lemma abs_finite (v : fl) : ~ F64.finite v -> ~ F64.finite (fl_abs v).
Proof. destruct v; simpl; auto. Qed.

(** A cut divided by an infinite or NaN maximum has no sample above one
    half. *)
Lemma above_special (v mx : fl) :
  mx = PInf \/ mx = NaN -> above (fl_div v mx) = false.
Proof. intros [-> | ->]; destruct v; reflexivity. Qed.

(** When no pixel is above one half after the division by the maximum,
    both cuts end in an IndexError, whatever the axes. *)
Lemma fwhm1_fl_flat (a : list (list fl)) (y_out : list (list Q)) (mx : fl) :
  Np.fmax (concat (map (map fl_abs) a)) = Ok mx ->
  (forall v, above (fl_div v mx) = false) ->
  fwhm1_fl a y_out = Raise IndexError.
Proof.
  intros Hmx Hf. unfold fwhm1_fl, indx_fl. rewrite Hmx. cbn [Np.bind].
  set (ix := Np.where2 _).
  unfold Np.first. destruct (hd_error (fst ix)) as [i|]; [|reflexivity].
  cbn [Np.bind Np.of_option].
  unfold Np.row, Np.get.
  destruct (nth_error y_out i) as [r|]; [|reflexivity].
  cbn [Np.bind Np.of_option].
  destruct (nth_error _ i) as [c|]; [|reflexivity].
  cbn [Np.bind Np.of_option].
  apply half_width_none, find_index_none.
  intros e He. apply in_map_iff in He. destruct He as [v [<- _]]. apply Hf.
Qed.

Lemma special_max (a : list (list fl)) :
  Exists (Exists (fun v => ~ F64.finite v)) a ->
  exists mx, Np.fmax (concat (map (map fl_abs) a)) = Ok mx /\
             (mx = PInf \/ mx = NaN).
Proof.
  intro H. destruct (exists_in_concat _ _ H) as (r & v & Hr & Hv & Nv).
  assert (Hin : In (fl_abs v) (concat (map (map fl_abs) a))).
  { rewrite concat_fl_abs. apply in_map, in_concat. eauto. }
  destruct (concat (map (map fl_abs) a)) as [|x t] eqn:E; [destruct Hin|].
  exists (fold_left fl_max2 t x). split; [reflexivity|].
  apply fold_max2_special.
  - apply Exists_exists. exists (fl_abs v). split; trivial. now apply abs_finite.
  - rewrite <- E, concat_fl_abs. apply Forall_map, Forall_forall.
    intros u _. apply abs_not_ninf.
Qed.

(** X4: what the extractor does with a map as line 180 can deliver it,
    pixels being finite numbers, infinities or NaN.  Without any pixel
    it raises ValueError.  With a pixel that is not finite it raises
    IndexError, whatever the axes; when that pixel is a NaN, as on the
    map of a far field of zeros, the error is the one of [indx[0][0]],
    the peak lookup having returned no position.  With finite pixels
    that are all zero it raises IndexError, because 0/0 is not above
    one half.  In every other case, for angular axes of the shape of
    the map, it returns a width, and the width is not negative. *)
Theorem fwhm_outcome (r c : nat) (a : list (list fl)) (x_ang y_ang : list (list Q)) :
  Np.shape r c a -> Np.shape r c x_ang -> Np.shape r c y_ang ->
  (concat a = [] -> fwhm_fl a x_ang y_ang = Raise ValueError) /\
  (Exists (Exists (fun v => ~ F64.finite v)) a ->
   fwhm_fl a x_ang y_ang = Raise IndexError) /\
  (Exists (Exists (fun v => v = NaN)) a ->
   exists ix, indx_fl a = Ok ix /\ Np.first (fst ix) = Raise IndexError) /\
  (concat a <> [] -> Forall (Forall (fun v => exists q, v = Fin q /\ q == 0)) a ->
   fwhm_fl a x_ang y_ang = Raise IndexError) /\
  (Forall (Forall F64.finite) a ->
   Exists (Exists (fun v => exists q, v = Fin q /\ ~ q == 0)) a ->
   exists w, fwhm_fl a x_ang y_ang = Ok w /\ 0 <= w).
Proof.
  intros Sa Sx Sy. split; [|split; [|split; [|split]]].
  - intro E. unfold fwhm_fl, fwhm1_fl, indx_fl. rewrite concat_fl_abs, E. reflexivity.
  - intro H. destruct (special_max a H) as (mx & Hmx & Smx).
    unfold fwhm_fl. rewrite (fwhm1_fl_flat a x_ang mx Hmx); [reflexivity|].
    intro v. now apply above_special.
  - intro H. exists ([], []). split; [now apply indx_fl_nan|reflexivity].
  - intros Hne Hz.
    destruct (finite_map a) as [a' ->].
    { eapply Forall_impl; [|exact Hz]. intros r0 H0.
      eapply Forall_impl; [|exact H0]. intros v [q [-> _]]. exact I. }
    rewrite fwhm_fl_fin.
    apply (fwhm_outcome_finite r c a' x_ang y_ang).
    + destruct Sa as [L F]. rewrite length_map in L. split; trivial.
      rewrite Forall_map in F. eapply Forall_impl; [|exact F].
      simpl. intro w. now rewrite length_map.
    + trivial.
    + trivial.
    + rewrite concat_fin_map in Hne. destruct (concat a'); [|discriminate].
      now contradiction Hne.
    + rewrite Forall_map in Hz. eapply Forall_impl; [|exact Hz].
      intros r0 H0. rewrite Forall_map in H0. eapply Forall_impl; [|exact H0].
      simpl. intros v [q [E Z]]. now injection E as ->.
  - intros Hf Hx.
    destruct (finite_map a Hf) as [a' ->].
    rewrite fwhm_fl_fin.
    apply (fwhm_outcome_finite r c a' x_ang y_ang).
    + destruct Sa as [L F]. rewrite length_map in L. split; trivial.
      rewrite Forall_map in F. eapply Forall_impl; [|exact F].
      simpl. intro w. now rewrite length_map.
    + trivial.
    + trivial.
    + rewrite Exists_map in Hx. eapply Exists_impl; [|exact Hx].
      intros r0 H0. rewrite Exists_map in H0. eapply Exists_impl; [|exact H0].
      simpl. intros v [q [E Z]]. now injection E as ->.
Qed.

(** The theorem at a map with one negative pixel, and at the map of a
    far field of zeros. *)
Lemma fwhm_outcome_witness :
  (exists w,
     fwhm_fl [[Fin 0; Fin (-1)]; [Fin 0; Fin 0]] [[0; 1]; [0; 1]] [[0; 0]; [1; 1]]
     = Ok w /\ 0 <= w) /\
  fwhm_fl [[NaN; NaN]; [NaN; NaN]] [[0; 1]; [0; 1]] [[0; 0]; [1; 1]]
  = Raise IndexError.
Proof.
  split.
  - refine (proj2 (proj2 (proj2 (proj2
              (fwhm_outcome 2 2 [[Fin 0; Fin (-1)]; [Fin 0; Fin 0]]
                 [[0; 1]; [0; 1]] [[0; 0]; [1; 1]] _ _ _)))) _ _).
    + split; [reflexivity|repeat constructor].
    + split; [reflexivity|repeat constructor].
    + split; [reflexivity|repeat constructor].
    + repeat constructor.
    + apply Exists_cons_hd, Exists_cons_tl, Exists_cons_hd.
      exists (-1). split; [reflexivity|discriminate].
  - refine (proj1 (proj2
              (fwhm_outcome 2 2 [[NaN; NaN]; [NaN; NaN]]
                 [[0; 1]; [0; 1]] [[0; 0]; [1; 1]] _ _ _)) _).
    + split; [reflexivity|repeat constructor].
    + split; [reflexivity|repeat constructor].
    + split; [reflexivity|repeat constructor].
    + apply Exists_cons_hd, Exists_cons_hd. intros [].
Defined.

Lemma fwhm_abs (a x_ang y_ang : list (list Q)) :
  fwhm (map (map Qabs) a) x_ang y_ang = fwhm a x_ang y_ang.
Proof.
  unfold fwhm. now rewrite fwhm1_abs, fwhm2_abs.
Qed.

End ExtractorOutcome.

(** ** The extractor and the scale of the map *)

Section ExtractorScale.

Variable c : Q.
Hypothesis c_nonzero : ~ c == 0.

Lemma abs_c_pos : 0 < Qabs c.
Proof.
  destruct (Qlt_le_dec 0 (Qabs c)) as [L|G]; trivial.
  exfalso. apply c_nonzero. apply Qabs_Qle_condition in G. lra.
Qed.

(** The largest magnitude of a scaled array is the scaled largest
    magnitude. *)
Lemma max_abs_scale (l : list Q) (mx : Q) :
  Np.max (map Qabs l) = Ok mx ->
  exists mx', Np.max (map Qabs (map (Qmult c) l)) = Ok mx' /\
    mx' == Qabs c * mx.
Proof.
  intro Hmx. destruct (max_inv _ _ Hmx) as [Hin Hge].
  destruct (max_ok (map Qabs (map (Qmult c) l))) as [mx' [Hmx' [Hin' Hge']]].
  { destruct l; [discriminate|discriminate]. }
  exists mx'. split; trivial.
  pose proof abs_c_pos as Pc.
  apply Qle_antisym.
  - rewrite map_map in Hin'. apply in_map_iff in Hin'.
    destruct Hin' as [u [<- Hu]]. rewrite Qabs_Qmult.
    assert (Qabs u <= mx) by (apply Hge; now apply in_map).
    nra.
  - apply in_map_iff in Hin. destruct Hin as [u [<- Hu]].
    rewrite <- Qabs_Qmult. apply Hge'.
    rewrite map_map. now apply (in_map (fun v => Qabs (c * v))).
Qed.

Lemma max_abs_scale_fail (l : list Q) (e : exn) :
  Np.max (map Qabs l) = Raise e ->
  Np.max (map Qabs (map (Qmult c) l)) = Raise e.
Proof.
  destruct l; [trivial|discriminate].
Qed.

(** Scaling moves no pixel onto or off the maximum. *)
Lemma at_peak_scale (mx mx' v : Q) :
  mx' == Qabs c * mx ->
  Qeq_bool (Qabs (c * v)) mx' = Qeq_bool (Qabs v) mx.
Proof.
  intro E. pose proof abs_c_pos as Pc.
  apply eq_true_iff_eq. rewrite !Qeq_bool_iff, E, Qabs_Qmult.
  apply Qmult_inj_l. lra.
Qed.

(** Scaling moves no sample across the half maximum. *)
Lemma above_scale (mx mx' v : Q) :
  mx' == Qabs c * mx ->
  above (fl_div (Fin (Qabs (c * v))) (Fin mx')) =
  above (fl_div (Fin (Qabs v)) (Fin mx)).
Proof.
  intro E. pose proof abs_c_pos as Pc.
  assert (Ev : Qabs (c * v) == Qabs c * Qabs v) by apply Qabs_Qmult.
  pose proof (Qabs_nonneg v) as Nv.
  unfold fl_div. destruct (Qeq_bool mx 0) eqn:Z.
  - apply Qeq_bool_eq in Z.
    assert (Z' : mx' == 0) by (rewrite E, Z; ring).
    rewrite (Qeq_eq_bool _ _ Z').
    destruct (Qeq_bool (Qabs v) 0) eqn:Zv.
    + apply Qeq_bool_eq in Zv.
      assert (Zv' : Qabs (c * v) == 0) by (rewrite Ev, Zv; ring).
      now rewrite (Qeq_eq_bool _ _ Zv').
    + apply Qeq_bool_neq in Zv.
      assert (Pv : 0 < Qabs v) by (destruct (Qlt_le_dec 0 (Qabs v)); [trivial|lra]).
      assert (Pv' : 0 < Qabs (c * v)) by (rewrite Ev; nra).
      destruct (Qeq_bool (Qabs (c * v)) 0) eqn:Zv'.
      * apply Qeq_bool_eq in Zv'. lra.
      * rewrite (proj2 (Qgtb_lt _ _) Pv), (proj2 (Qgtb_lt _ _) Pv'). reflexivity.
  - apply Qeq_bool_neq in Z.
    destruct (Qeq_bool mx' 0) eqn:Z'.
    + apply Qeq_bool_eq in Z'. exfalso. apply Z.
      rewrite E in Z'. apply (Qmult_inj_l mx 0 (Qabs c)); [lra|].
      rewrite Z'. ring.
    + unfold above, fl_gtb. apply Qgtb_comp; [|reflexivity].
      rewrite Ev, E. field. split; [exact Z|lra].
Qed.

Lemma concat_abs_scale (a : list (list Q)) :
  concat (map (map Qabs) (map (map (Qmult c)) a)) =
  map Qabs (map (Qmult c) (concat a)).
Proof.
  rewrite !concat_map. reflexivity.
Qed.

Lemma indx_scale (a : list (list Q)) :
  indx (map (map (Qmult c)) a) = indx a.
Proof.
  unfold indx. rewrite concat_abs_scale, concat_abs.
  destruct (Np.max (map Qabs (concat a))) as [mx|e] eqn:Hmx.
  - destruct (max_abs_scale _ _ Hmx) as [mx' [Hmx' E]].
    rewrite Hmx'. cbn [Np.bind]. do 2 f_equal.
    rewrite !map_map. apply map_ext. intro r.
    rewrite !map_map. apply map_ext. intro v.
    now apply at_peak_scale.
  - now rewrite (max_abs_scale_fail _ _ Hmx).
Qed.

(** The width of a cut against the scaled map and its maximum. *)
Lemma cut_scale (a : list (list Q)) (x : list Q) (cut : list Q) :
  (mx <- Np.max (concat (map (map Qabs) (map (map (Qmult c)) a))) ;;
   half_width x
     (map (fun v => fl_div (Fin v) (Fin mx)) (map Qabs (map (Qmult c) cut)))) =
  (mx <- Np.max (concat (map (map Qabs) a)) ;;
   half_width x (map (fun v => fl_div (Fin v) (Fin mx)) (map Qabs cut))).
Proof.
  rewrite concat_abs_scale, concat_abs.
  destruct (Np.max (map Qabs (concat a))) as [mx|e] eqn:Hmx.
  - destruct (max_abs_scale _ _ Hmx) as [mx' [Hmx' E]].
    rewrite Hmx'. cbn [Np.bind]. unfold half_width.
    assert (M : map above
                  (map (fun v => fl_div (Fin v) (Fin mx'))
                     (map Qabs (map (Qmult c) cut))) =
                map above
                  (map (fun v => fl_div (Fin v) (Fin mx)) (map Qabs cut))).
    { rewrite !map_map. apply map_ext. intro v. now apply above_scale. }
    now rewrite M.
  - now rewrite (max_abs_scale_fail _ _ Hmx).
Qed.

Lemma fwhm1_scale (a y_out : list (list Q)) :
  fwhm1 (map (map (Qmult c)) a) y_out = fwhm1 a y_out.
Proof.
  unfold fwhm1. rewrite indx_scale.
  destruct (indx a) as [ix|e]; [|reflexivity]. cbn [Np.bind].
  destruct (Np.first (fst ix)) as [i|e]; [|reflexivity]. cbn [Np.bind].
  destruct (Np.row y_out i) as [r|e]; [|reflexivity]. cbn [Np.bind].
  unfold Np.row, Np.get. rewrite !nth_error_map.
  destruct (nth_error a i) as [cut|]; [|reflexivity].
  cbn [Np.bind Np.of_option option_map]. apply cut_scale.
Qed.

Lemma fwhm2_scale (a x_out : list (list Q)) :
  fwhm2 (map (map (Qmult c)) a) x_out = fwhm2 a x_out.
Proof.
  unfold fwhm2. rewrite indx_scale.
  destruct (indx a) as [ix|e]; [|reflexivity]. cbn [Np.bind].
  destruct (Np.first (snd ix)) as [j|e]; [|reflexivity]. cbn [Np.bind].
  destruct (Np.col x_out j) as [r|e]; [|reflexivity]. cbn [Np.bind].
  rewrite !col_column, !column_map.
  destruct (column a j) as [cut|]; [|reflexivity].
  cbn [Np.bind Np.of_option option_map]. apply cut_scale.
Qed.

End ExtractorScale.

Section ExtractorInvariance.

(** X5: the extractor sees a map only through the magnitudes of its
    pixels relative to the largest one: replacing every pixel by its
    absolute value, or multiplying the whole map by a nonzero constant,
    changes neither the outcome nor the width. *)
Theorem fwhm_relative_magnitude (a x_ang y_ang : list (list Q)) :
  fwhm (map (map Qabs) a) x_ang y_ang = fwhm a x_ang y_ang /\
  forall c, ~ c == 0 ->
    fwhm (map (map (Qmult c)) a) x_ang y_ang = fwhm a x_ang y_ang.
Proof.
  split; [apply fwhm_abs|].
  intros c Hc. unfold fwhm.
  now rewrite (fwhm1_scale c Hc), (fwhm2_scale c Hc).
Qed.

(** The theorem at a map multiplied by minus three. *)
Lemma fwhm_relative_magnitude_witness :
  fwhm (map (map (Qmult (-3))) [[0; 1]; [2; 1]]) [[0; 1]; [0; 1]] [[0; 0]; [1; 1]] =
  fwhm [[0; 1]; [2; 1]] [[0; 1]; [0; 1]] [[0; 0]; [1; 1]].
Proof.
  apply (proj2 (fwhm_relative_magnitude [[0; 1]; [2; 1]]
                  [[0; 1]; [0; 1]] [[0; 0]; [1; 1]]) (-3)).
  discriminate.
Defined.

End ExtractorInvariance.

(** ** The extractor and the angular axes *)

Section ExtractorAxes.

Lemma take_map {A B : Type} (f : A -> B) (x : list A) (idx : list nat) :
  Np.take (map f x) idx = Np.bind (Np.take x idx) (fun s => Ok (map f s)).
Proof.
  unfold Np.take. induction idx as [|k t IH]; simpl; trivial.
  unfold Np.get at 1 3. rewrite nth_error_map.
  destruct (nth_error x k) as [v|]; simpl; trivial.
  rewrite IH. destruct (Np.mapM (Np.get x) t); reflexivity.
Qed.

(** A width depends on the axis only through the two coordinates at the
    leftmost and the rightmost sample above one half. *)
Lemma half_width_map_ends (g : Q -> Q) (x : list Q) (y : list fl) (w : Q) :
  half_width (map g x) y = Ok w ->
  exists v1 v2, w = Qabs (g v1 - g v2) /\
    forall f, half_width (map f x) y = Ok (Qabs (f v1 - f v2)).
Proof.
  unfold half_width. rewrite !take_map.
  destruct (Np.take x (where1 (map above y))) as [s|e] eqn:Et; [|discriminate].
  cbn [Np.bind]. rewrite first_map, last_map.
  destruct (Np.first s) as [v1|e1] eqn:E1; [|discriminate].
  destruct (Np.last_ s) as [v2|e2] eqn:E2; [|discriminate].
  cbn [Np.bind]. intro H. injection H as <-.
  exists v1, v2. split; trivial.
  intro f. rewrite !take_map, Et. cbn [Np.bind].
  rewrite first_map, last_map, E1, E2. reflexivity.
Qed.

Lemma fwhm1_map_ends (a y_out : list (list Q)) (w : Q) :
  fwhm1 a y_out = Ok w ->
  exists v1 v2, w = Qabs (arcmin v1 - arcmin v2) /\
    forall f, fwhm1 a (map (map f) y_out) =
              Ok (Qabs (arcmin (f v1) - arcmin (f v2))).
Proof.
  unfold fwhm1. destruct (indx a) as [ix|e]; [|discriminate]. cbn [Np.bind].
  destruct (Np.first (fst ix)) as [i|e]; [|discriminate]. cbn [Np.bind].
  unfold Np.row, Np.get. rewrite nth_error_map.
  destruct (nth_error y_out i) as [r|] eqn:Er; [|discriminate].
  destruct (nth_error a i) as [cut|] eqn:Ec; [|discriminate].
  cbn [Np.bind Np.of_option option_map].
  destruct (Np.max (concat (map (map Qabs) a))) as [mx|e]; [|discriminate].
  cbn [Np.bind]. intro H.
  destruct (half_width_map_ends arcmin r _ w H) as (v1 & v2 & Ew & Hf).
  exists v1, v2. split; trivial.
  intro f. rewrite nth_error_map, Er.
  cbn [Np.bind Np.of_option option_map]. rewrite map_map.
  apply (Hf (fun v => arcmin (f v))).
Qed.

Lemma fwhm2_map_ends (a x_out : list (list Q)) (w : Q) :
  fwhm2 a x_out = Ok w ->
  exists v1 v2, w = Qabs (arcmin v1 - arcmin v2) /\
    forall f, fwhm2 a (map (map f) x_out) =
              Ok (Qabs (arcmin (f v1) - arcmin (f v2))).
Proof.
  unfold fwhm2. destruct (indx a) as [ix|e]; [|discriminate]. cbn [Np.bind].
  destruct (Np.first (snd ix)) as [j|e]; [|discriminate]. cbn [Np.bind].
  rewrite !col_column, column_map.
  destruct (column x_out j) as [r|] eqn:Er; [|discriminate].
  destruct (column a j) as [cut|] eqn:Ec; [|discriminate].
  cbn [Np.bind Np.of_option option_map].
  destruct (Np.max (concat (map (map Qabs) a))) as [mx|e]; [|discriminate].
  cbn [Np.bind]. intro H.
  destruct (half_width_map_ends arcmin r _ w H) as (v1 & v2 & Ew & Hf).
  exists v1, v2. split; trivial.
  intro f. rewrite col_column, column_map, Er.
  cbn [Np.bind Np.of_option option_map]. rewrite map_map.
  apply (Hf (fun v => arcmin (f v))).
Qed.

Lemma arcmin_affine (s k v1 v2 : Q) :
  Qabs (arcmin (s * v1 + k) - arcmin (s * v2 + k)) ==
  Qabs s * Qabs (arcmin v1 - arcmin v2).
Proof.
  rewrite <- Qabs_Qmult. apply Qabs_wd.
  unfold arcmin. field. apply pi_nonzero.
Qed.

(** X6: the width does not depend on where the angular axes have their
    origin, and scales with their unit.  When the extractor returns a
    width [w], it returns [|s| w] for the same map on the axes
    [s x + cx] and [s y + cy]: a shift of either axis changes nothing,
    a mirrored axis changes nothing, a change of unit rescales. *)
Theorem fwhm_axes_affine (a x_ang y_ang : list (list Q)) (s cx cy w : Q) :
  fwhm a x_ang y_ang = Ok w ->
  exists w',
    fwhm a (map (map (fun v => s * v + cx)) x_ang)
           (map (map (fun v => s * v + cy)) y_ang) = Ok w' /\
    w' == Qabs s * w.
Proof.
  unfold fwhm.
  destruct (fwhm1 a x_ang) as [w1|e1] eqn:H1; [|discriminate]. cbn [Np.bind].
  destruct (fwhm2 a y_ang) as [w2|e2] eqn:H2; [|discriminate]. cbn [Np.bind].
  intro H. injection H as <-.
  destruct (fwhm1_map_ends _ _ _ H1) as (u1 & u2 & -> & F1).
  destruct (fwhm2_map_ends _ _ _ H2) as (v1 & v2 & -> & F2).
  rewrite F1, F2. cbn [Np.bind]. eexists. split; [reflexivity|].
  rewrite !arcmin_affine. field.
Qed.

(** The theorem at a two by two map, axes mirrored and shifted. *)
Lemma fwhm_axes_affine_witness :
  exists w w',
    fwhm [[1; 1]; [1; 0]] [[0; 1]; [0; 1]] [[0; 0]; [1; 1]] = Ok w /\
    fwhm [[1; 1]; [1; 0]]
         (map (map (fun v => -1 * v + 5)) [[0; 1]; [0; 1]])
         (map (map (fun v => -1 * v + 7)) [[0; 0]; [1; 1]]) = Ok w' /\
    w' == Qabs (-1) * w.
Proof.
  assert (H : {w | fwhm [[1; 1]; [1; 0]] [[0; 1]; [0; 1]] [[0; 0]; [1; 1]] = Ok w}).
  { eexists. vm_compute. reflexivity. }
  destruct H as [w H].
  destruct (fwhm_axes_affine _ _ _ (-1) 5 7 w H) as [w' [H' E]].
  exists w, w'. exact (conj H (conj H' E)).
Defined.

End ExtractorAxes.

Section PeakOrder.



End PeakOrder.

(** ** Field Synthesizer: the amplitudes in closed form *)

Section SynthesizerFormula.

(** The samples of the field for amplitudes that are not negative and
    not all zero. *)
Lemma beam_sim_samples (a p : list Q) :
  length a = length p ->
  Forall (fun v => 0 <= v) a ->
  Exists (fun v => 0 < v) a ->
  exists M field,
    Np.max (map Qabs a) = Ok M /\ 0 < M /\
    beam_sim a p = Ok field /\ length field = length a /\
    forall k, (k < length a)%nat ->
      exists q, nth k field (mkSample NaN 0) = mkSample (Fin q) (nth k p 0) /\
        q == (nth k a 0 / M + noise) / (1 + noise).
Proof.
  intros Hlen Hnn Hex.
  rewrite Forall_forall in Hnn. apply Exists_exists in Hex.
  destruct Hex as [p0 [Hp0 Pp0]].
  destruct (max_ok (map Qabs a)) as [m1 [Hm1 [Him1 Hge1]]].
  { destruct a; [destruct Hp0|discriminate]. }
  assert (B1 : forall v, In v a -> 0 <= v <= m1).
  { intros v Hv. split; [now apply Hnn|].
    apply Qle_trans with (Qabs v); [apply Qle_Qabs|]. apply Hge1. now apply in_map. }
  assert (P1 : 0 < m1).
  { apply Qlt_le_trans with p0; trivial. now apply B1. }
  set (vs := map (fun v => v / m1 + noise) a).
  assert (E2 : map (fun v => fl_add v (Fin noise))
                 (map (fun v => fl_div (Fin v) (Fin m1)) a) = map Fin vs).
  { unfold vs. rewrite !map_map. apply map_ext. intro v.
    rewrite fl_div_fin by lra. reflexivity. }
  pose proof noise_pos as Pn.
  assert (Bv : forall v, In v vs -> noise <= v <= 1 + noise).
  { intros v Hv. unfold vs in Hv. apply in_map_iff in Hv.
    destruct Hv as [u [<- Hu]]. destruct (B1 u Hu) as [U0 U1].
    assert (0 <= u / m1) by (apply Qle_shift_div_l; lra).
    assert (u / m1 <= 1) by (apply Qle_shift_div_r; lra).
    split; lra. }
  destruct (fmax_fin vs) as [m2 [Hm2 [Him2 Hge2]]].
  { unfold vs. destruct a; [destruct Hp0|discriminate]. }
  assert (Em2 : m2 == 1 + noise).
  { apply Qle_antisym; [apply (Bv m2 Him2)|].
    apply in_map_iff in Him1. destruct Him1 as [u [Eu Hu]].
    assert (Eu' : u == m1).
    { rewrite <- Eu. symmetry. apply Qabs_pos. now apply Hnn. }
    assert (E : u / m1 + noise == 1 + noise).
    { rewrite Eu'. field. lra. }
    rewrite <- E. apply Hge2. unfold vs.
    now apply (in_map (fun v => v / m1 + noise)). }
  assert (P2 : 0 < m2) by lra.
  set (ws := map (fun v => v / m2) vs).
  assert (E3 : map (fun v => fl_div v (Fin m2)) (map Fin vs) = map Fin ws).
  { unfold ws. rewrite !map_map. apply map_ext. intro v.
    rewrite fl_div_fin by lra. reflexivity. }
  assert (L3 : length (map Fin ws) = length p).
  { unfold ws, vs. now rewrite !length_map. }
  exists m1. eexists. split; [exact Hm1|]. split; [exact P1|].
  split; [|split].
  - unfold beam_sim. rewrite Hm1. cbn [Np.bind]. rewrite E2, Hm2. cbn [Np.bind].
    rewrite E3. unfold broadcast. rewrite L3, Nat.eqb_refl. reflexivity.
  - rewrite length_map, length_combine, L3, Hlen. apply Nat.min_id.
  - intros k Hk.
    exists (nth k ws 0). split.
    + rewrite (nth_map_lt _ _ k (Fin 0, 0) _)
        by (rewrite length_combine, L3, <- Hlen; lia).
      rewrite combine_nth by exact L3. cbn [fst snd].
      now rewrite (map_nth Fin ws 0 k).
    + unfold ws, vs.
      rewrite (nth_map_lt _ _ k 0 0) by (rewrite length_map; lia).
      rewrite (nth_map_lt _ a k 0 0) by lia.
      rewrite Em2. reflexivity.
Qed.

(** X8: for amplitudes that are not negative and not all zero, sample
    [k] of the field carries the phase [p_sim[k]] unchanged and the
    amplitude [(a[k] / max(a) + noise) / (1 + noise)]: the brightest ray
    has amplitude 1, a ray of zero amplitude has the floor
    [noise / (1 + noise)]. *)
Theorem beam_sim_closed_form (a p : list Q) :
  length a = length p ->
  Forall (fun v => 0 <= v) a ->
  Exists (fun v => 0 < v) a ->
  exists M field,
    Np.max a = Ok M /\ beam_sim a p = Ok field /\
    length field = length a /\
    forall k, (k < length a)%nat ->
      exists q, nth k field (mkSample NaN 0) = mkSample (Fin q) (nth k p 0) /\
        q == (nth k a 0 / M + noise) / (1 + noise) /\
        (nth k a 0 == 0 -> q == noise / (1 + noise)) /\
        (nth k a 0 == M -> q == 1).
Proof.
  intros Hlen Hnn Hex.
  destruct (beam_sim_samples a p Hlen Hnn Hex) as (M & field & HM & PM & Hb & Hl & Hk).
  destruct (max_ok a) as [M' [HM' [Hin' Hge']]].
  { destruct a; [inversion Hex|discriminate]. }
  assert (EM : M' == M).
  { rewrite Forall_forall in Hnn. destruct (max_inv _ _ HM) as [Hin Hge].
    apply Qle_antisym.
    - apply Qle_trans with (Qabs M'); [apply Qle_Qabs|].
      apply Hge. now apply in_map.
    - apply in_map_iff in Hin. destruct Hin as [u [<- Hu]].
      rewrite Qabs_pos by now apply Hnn. now apply Hge'. }
  exists M', field. split; [exact HM'|]. split; [exact Hb|]. split; [exact Hl|].
  intros k Lk. destruct (Hk k Lk) as [q [Hq Eq]].
  pose proof noise_pos as Pn.
  exists q. split; [exact Hq|]. rewrite EM. split; [exact Eq|]. split.
  - intro Z. rewrite Eq, Z. field. lra.
  - intro Z. rewrite Eq, Z. field. lra.
Qed.

(** The theorem at three rays. *)
Lemma beam_sim_closed_form_witness :
  exists M field,
    Np.max [1; 4; 0] = Ok M /\ beam_sim [1; 4; 0] [0; 1; 2] = Ok field /\
    length field = 3%nat /\
    forall k, (k < 3)%nat ->
      exists q, nth k field (mkSample NaN 0) = mkSample (Fin q) (nth k [0; 1; 2] 0) /\
        q == (nth k [1; 4; 0] 0 / M + noise) / (1 + noise) /\
        (nth k [1; 4; 0] 0 == 0 -> q == noise / (1 + noise)) /\
        (nth k [1; 4; 0] 0 == M -> q == 1).
Proof.
  apply (beam_sim_closed_form [1; 4; 0] [0; 1; 2]).
  - reflexivity.
  - repeat constructor; discriminate.
  - apply Exists_cons_hd. reflexivity.
Defined.

(** X9: the field does not depend on the overall scale of the
    amplitudes: multiplying all of them by a positive constant gives,
    ray by ray, the same amplitude and the same phase. *)
Theorem beam_sim_scale_free (a p : list Q) (c : Q) :
  length a = length p ->
  Forall (fun v => 0 <= v) a ->
  Exists (fun v => 0 < v) a ->
  0 < c ->
  exists f f',
    beam_sim a p = Ok f /\ beam_sim (map (Qmult c) a) p = Ok f' /\
    length f = length a /\ length f' = length a /\
    forall k, (k < length a)%nat ->
      exists q q',
        nth k f (mkSample NaN 0) = mkSample (Fin q) (nth k p 0) /\
        nth k f' (mkSample NaN 0) = mkSample (Fin q') (nth k p 0) /\
        q == q'.
Proof.
  intros Hlen Hnn Hex Pc.
  destruct (beam_sim_samples a p Hlen Hnn Hex) as (M & f & HM & PM & Hb & Hl & Hk).
  assert (Hlen' : length (map (Qmult c) a) = length p) by now rewrite length_map.
  assert (Hnn' : Forall (fun v => 0 <= v) (map (Qmult c) a)).
  { apply Forall_map. eapply Forall_impl; [|exact Hnn]. simpl. intros; nra. }
  assert (Hex' : Exists (fun v => 0 < v) (map (Qmult c) a)).
  { apply Exists_exists in Hex. destruct Hex as [v [Hv Pv]].
    apply Exists_exists. exists (c * v). split; [now apply in_map|nra]. }
  destruct (beam_sim_samples _ p Hlen' Hnn' Hex')
    as (M' & f' & HM' & PM' & Hb' & Hl' & Hk').
  assert (Nc : ~ c == 0) by lra.
  destruct (max_abs_scale c Nc a M HM) as [M'' [HM'' EM]].
  rewrite HM' in HM''. injection HM'' as <-.
  rewrite (Qabs_pos c) in EM by lra.
  rewrite length_map in Hl', Hk'.
  exists f, f'. split; [exact Hb|]. split; [exact Hb'|].
  split; [exact Hl|]. split; [exact Hl'|].
  intros k Lk.
  destruct (Hk k Lk) as [q [Hq Eq]]. destruct (Hk' k Lk) as [q' [Hq' Eq']].
  exists q, q'. split; [exact Hq|]. split; [exact Hq'|].
  rewrite Eq, Eq'. rewrite (nth_map_lt (Qmult c) a k 0 0 Lk), EM.
  pose proof noise_pos. field. repeat split; lra.
Qed.

(** The theorem at three rays, amplitudes multiplied by 5. *)
Lemma beam_sim_scale_free_witness :
  exists f f',
    beam_sim [1; 4; 0] [0; 1; 2] = Ok f /\
    beam_sim (map (Qmult 5) [1; 4; 0]) [0; 1; 2] = Ok f' /\
    length f = 3%nat /\ length f' = 3%nat /\
    forall k, (k < 3)%nat ->
      exists q q',
        nth k f (mkSample NaN 0) = mkSample (Fin q) (nth k [0; 1; 2] 0) /\
        nth k f' (mkSample NaN 0) = mkSample (Fin q') (nth k [0; 1; 2] 0) /\
        q == q'.
Proof.
  apply (beam_sim_scale_free [1; 4; 0] [0; 1; 2] 5).
  - reflexivity.
  - repeat constructor; discriminate.
  - apply Exists_cons_hd. reflexivity.
  - reflexivity.
Defined.

End SynthesizerFormula.

(** ** One cut: side lobes *)

Section SideLobes.

(** X12: on a monotone axis the width spans every sample above one
    half, not only the main lobe: any two samples of the cut that are
    above one half, wherever they lie, are no further apart than the
    width that is returned. *)
Theorem half_width_spans_all_above (x : list Q) (y : list fl) (w : Q) :
  half_width x y = Ok w -> monotone x ->
  forall k1 k2 v1 v2,
    nth_error y k1 = Some v1 -> above v1 = true ->
    nth_error y k2 = Some v2 -> above v2 = true ->
    Qabs (nth k1 x 0 - nth k2 x 0) <= w.
Proof.
  intros H M k1 k2 v1 v2 H1 A1 H2 A2.
  destruct (half_width_inv x y w H) as (l & r & Hl & Hr & Hle & Ll & Lr & ->).
  destruct (find_index_some _ _ _ Hl) as [_ Lo].
  destruct (find_last_some _ _ _ Hr) as [_ Hi].
  assert (B : forall k v, nth_error y k = Some v -> above v = true ->
                (l <= k <= r)%nat).
  { intros k v Hk Ak. split.
    - destruct (Nat.le_gt_cases l k) as [L|G]; trivial.
      specialize (Lo k v G Hk). congruence.
    - destruct (Nat.le_gt_cases k r) as [L|G]; trivial.
      specialize (Hi k v G Hk). congruence. }
  destruct (B k1 v1 H1 A1) as [B1 B1']. destruct (B k2 v2 H2 A2) as [B2 B2'].
  destruct M as [A|D].
  - pose proof (ascending_nth x A l k1 B1 ltac:(lia)).
    pose proof (ascending_nth x A k1 r B1' Lr).
    pose proof (ascending_nth x A l k2 B2 ltac:(lia)).
    pose proof (ascending_nth x A k2 r B2' Lr).
    rewrite (Qabs_neg (nth l x 0 - nth r x 0)) by lra.
    apply Qabs_Qle_condition. split; lra.
  - pose proof (descending_nth x D l k1 B1 ltac:(lia)).
    pose proof (descending_nth x D k1 r B1' Lr).
    pose proof (descending_nth x D l k2 B2 ltac:(lia)).
    pose proof (descending_nth x D k2 r B2' Lr).
    rewrite (Qabs_pos (nth l x 0 - nth r x 0)) by lra.
    apply Qabs_Qle_condition. split; lra.
Qed.

(** The theorem at a cut with a main lobe and a side lobe above one
    half. *)
Lemma half_width_spans_all_above_witness :
  Qabs (nth 1 [0; 1; 2; 3; 4] 0 - nth 4 [0; 1; 2; 3; 4] 0) <= 3.
Proof.
  apply (half_width_spans_all_above [0; 1; 2; 3; 4]
           [Fin 0; Fin 1; Fin (1 # 10); Fin 0; Fin (6 # 10)] 3 eq_refl)
    with (v1 := Fin 1) (v2 := Fin (6 # 10)).
  - left. simpl. repeat split; discriminate.
  - reflexivity.
  - reflexivity.
  - reflexivity.
  - reflexivity.
Defined.

End SideLobes.
